(** * dark_mode_server: a shallow embedding of [server.py]

    The development follows the source file top to bottom:

    - Python values the handler manipulates ([str] as code points, [bytes],
      UTF-8 encoding, number formatting);
    - [pathlib] paths and the filesystem they are resolved against;
    - the handler's effects (response events and exceptions) as a small
      state-and-exception monad;
    - [handle_api], [handle_file_or_dir], [send_directory_listing], [do_GET],
      first on a directory tree that stays as it is and a connection that
      takes everything, then on an operating system whose calls can fail;
    - the request lifecycle [handle_one_request] under the class-level
      semaphore, as a transition system over interleaved handler threads;
    - the properties of the specification. *)

From Stdlib Require Import Ascii String DecimalN DecimalString.
From stdpp Require Import base numbers list sets sorting lexico strings.

Set Warnings "-register-all".
Local Open Scope N_scope.

(** ** Python values *)

(** A Python [str] is a sequence of Unicode code points; [bytes] is a
    sequence of octets. Both are lists of [N]. *)
Abbreviation str := (list N) (only parsing).
Abbreviation bytes := (list N) (only parsing).

(** An ASCII literal of the source, as a [str]. *)
Definition lit (s : string) : str :=
  (λ a, N_of_ascii a) <$> list_ascii_of_string s.

(** The double quote character, which the literals below splice in. *)
Definition dq : str := [34].

(** [str(n)] for a non-negative [int]. *)
Definition str_of_int (n : N) : str :=
  lit (NilZero.string_of_uint (N.to_uint n)).

(** [s.lstrip(c)] for a one-character argument. *)
Fixpoint lstrip (c : N) (s : str) : str :=
  match s with
  | [] => []
  | x :: s' => if decide (x = c) then lstrip c s' else s
  end.

(** [s.split(sep)] for a one-character separator. *)
Fixpoint split (sep : N) (s : str) : list str :=
  match s with
  | [] => [[]]
  | x :: s' =>
      if decide (x = sep) then [] :: split sep s'
      else match split sep s' with
           | p :: ps => (x :: p) :: ps
           | [] => [[x]]
           end
  end.

(** [sep.join(l)]. *)
Fixpoint join (sep : str) (l : list str) : str :=
  match l with
  | [] => []
  | [x] => x
  | x :: l' => x ++ sep ++ join sep l'
  end.

(** *** UTF-8 ([str.encode('utf-8')], strict error handler) *)

Definition is_surrogate (c : N) : bool := (0xD800 <=? c) && (c <=? 0xDFFF).

(** One code point. Surrogates are not encodable; neither is anything above
    U+10FFFF, which a [str] cannot hold. *)
Definition utf8_char (c : N) : option bytes :=
  if c <? 0x80 then Some [c]
  else if c <? 0x800 then
    Some [N.lor 0xC0 (N.shiftr c 6); N.lor 0x80 (N.land c 0x3F)]
  else if is_surrogate c then None
  else if c <? 0x10000 then
    Some [N.lor 0xE0 (N.shiftr c 12);
          N.lor 0x80 (N.land (N.shiftr c 6) 0x3F);
          N.lor 0x80 (N.land c 0x3F)]
  else if c <? 0x110000 then
    Some [N.lor 0xF0 (N.shiftr c 18);
          N.lor 0x80 (N.land (N.shiftr c 12) 0x3F);
          N.lor 0x80 (N.land (N.shiftr c 6) 0x3F);
          N.lor 0x80 (N.land c 0x3F)]
  else None.

(** The whole string: [None] stands for [UnicodeEncodeError]. *)
Fixpoint utf8 (s : str) : option bytes :=
  match s with
  | [] => Some []
  | c :: s' =>
      match utf8_char c, utf8 s' with
      | Some b, Some bs => Some (b ++ bs)
      | _, _ => None
      end
  end.

(** *** [f"{size/1024:.1f} KB"]

    [st_size / 1024] is the true division of two [int]s: its result is the
    double-precision float nearest to the exact quotient, ties to even. The
    divisor is a power of two, so that float is [round_to_double st_size]
    divided by 1024: the size kept to 53 significant bits, which is the size
    itself below [2^53]. [.1f] then rounds the exact value of the float to one
    decimal, ties to even. Both roundings are computed on integers.
    ([st_size] is an [off_t], below [2^63]; the division overflows only from
    about [2^1034] on.) *)
Definition round_half_even (num den : N) : N :=
  let q := num / den in
  let r := num mod den in
  match 2 * r ?= den with
  | Lt => q
  | Gt => q + 1
  | Eq => if N.even q then q else q + 1
  end.

(** The value of [float(n)]: [n] rounded to 53 significant bits. *)
Definition round_to_double (n : N) : N :=
  let e := N.log2 n - 52 in
  round_half_even n (2 ^ e) * 2 ^ e.

Definition tenths_of_kib (st_size : N) : N :=
  round_half_even (10 * round_to_double st_size) 1024.

(** [f"{x:.1f}"] of the value [t / 10]. *)
Definition format_1f (t : N) : str :=
  str_of_int (t / 10) ++ lit "." ++ str_of_int (t mod 10).

Definition format_kib (st_size : N) : str :=
  format_1f (tenths_of_kib st_size) ++ lit " KB".

(** ** pathlib *)

(** An absolute [PurePosixPath], as its parts below the root [/]. *)
Abbreviation Path := (list (list N)) (only parsing).

(** Parsing of a path string: split at [/], drop empty and [.] segments;
    [..] segments are kept. *)
Definition parse_parts (s : str) : list str :=
  filter (λ p, p ≠ [] ∧ p ≠ lit ".") (split 47 s).

(** [p / s]: a relative [s] is appended, an absolute one replaces [p]. *)
Definition truediv (p : Path) (s : str) : Path :=
  match s with
  | 47 :: _ => parse_parts s
  | _ => p ++ parse_parts s
  end.

(** [p.relative_to(base)]: purely lexical; [None] stands for [ValueError]. *)
Fixpoint relative_to (p base : Path) : option (Path) :=
  match base, p with
  | [], _ => Some p
  | b :: base', x :: p' => if decide (x = b) then relative_to p' base' else None
  | _ :: _, [] => None
  end.

(** [str(p)] for a relative path. *)
Definition str_of_relpath (p : Path) : str :=
  match p with
  | [] => lit "."
  | _ => join (lit "/") p
  end.

(** [p.name]. *)
Definition name (p : Path) : str := default [] (last p).

(** [p1 < p2], which [sorted] uses: the parts are compared as lists of
    strings, the strings by code point. *)
Definition path_lt (p1 p2 : Path) : Prop := lexico p1 p2.
Definition str_lt (s1 s2 : str) : Prop := lexico s1 s2.

Global Instance path_lt_dec : RelDecision path_lt.
Proof. intros p1 p2. unfold path_lt. apply _. Defined.
Global Instance str_lt_dec : RelDecision str_lt.
Proof. intros s1 s2. unfold str_lt. apply _. Defined.

(** [sorted(l)]: a merge sort that takes the left element unless the right
    one is smaller. *)
Definition sorted (l : list Path) : list Path :=
  merge_sort (λ p1 p2, ¬ path_lt p2 p1) l.

(** ** The filesystem *)

(** A tree of directories and regular files (no symbolic links), each with
    the size [stat] reports. The order of a directory's entries is the order
    in which the system enumerates them. *)
Inductive node :=
  | File (st_size : N)
  | Dir (st_size : N) (entries : list (str * node)).

Fixpoint lookup_entry (n : str) (es : list (str * node)) : option node :=
  match es with
  | [] => None
  | (n', nd) :: es' => if decide (n' = n) then Some nd else lookup_entry n es'
  end.

(** Path resolution as the kernel does it, from a directory [cur] whose
    ancestors are [up] (innermost first, each with the name that leads down
    from it): every component but the last must be a directory, [..] goes to
    the parent, and the root is its own parent. *)
Fixpoint walk (up : list (str * node)) (cur : node) (parts : Path)
  : option (list (str * node) * node) :=
  match parts with
  | [] => Some (up, cur)
  | p :: ps =>
      match cur with
      | File _ => None
      | Dir _ es =>
          if decide (p = lit ".") then walk up cur ps
          else if decide (p = lit "..") then
            match up with
            | [] => walk [] cur ps
            | (_, parent) :: up' => walk up' parent ps
            end
          else
            match lookup_entry p es with
            | None => None
            | Some nd => walk ((p, cur) :: up) nd ps
            end
      end
  end.

(** The location a resolution ends at: the names from the root down. *)
Definition location (up : list (str * node)) : Path :=
  reverse (up.*1).

Definition resolve (root : node) (p : Path)
  : option (Path * node) :=
  prod_map location id <$> walk [] root p.

(** [p.exists()], [p.is_dir()], [p.stat().st_size], [p.iterdir()] on such a
    tree, where [stat] fails only because nothing is at the path ([ENOENT],
    [ENOTDIR]): [exists()] and [is_dir()] are then [False]; [None] stands
    for [OSError]. The other failures of these calls are those of a
    [system], below. *)
Definition exists_ (root : node) (p : Path) : bool :=
  bool_decide (is_Some (resolve root p)).

Definition is_dir (root : node) (p : Path) : bool :=
  match resolve root p with
  | Some (_, Dir _ _) => true
  | _ => false
  end.

Definition stat_size (root : node) (p : Path) : option N :=
  match resolve root p with
  | Some (_, File sz) => Some sz
  | Some (_, Dir sz _) => Some sz
  | None => None
  end.

Definition iterdir (root : node) (p : Path) : option (list Path) :=
  match resolve root p with
  | Some (_, Dir _ es) => Some ((λ e, p ++ [e.1]) <$> es)
  | _ => None
  end.

(** ** json.dumps *)

(** [format(d, 'x')] for one hexadecimal digit, and ['{0:04x}'.format(n)]. *)
Definition hex_digit (d : N) : N := if d <? 10 then 48 + d else 87 + d.

Definition hex4 (n : N) : str :=
  [hex_digit (N.land (N.shiftr n 12) 0xF); hex_digit (N.land (N.shiftr n 8) 0xF);
   hex_digit (N.land (N.shiftr n 4) 0xF); hex_digit (N.land n 0xF)].

(** The replacement [json.encoder] makes for one character: backslash, the
    double quote and everything outside [' '..'~'] are escaped. *)
Definition escape_char (c : N) : str :=
  if decide (c = 92) then lit "\\"
  else if decide (c = 34) then lit "\" ++ dq
  else if decide (c = 8) then lit "\b"
  else if decide (c = 12) then lit "\f"
  else if decide (c = 10) then lit "\n"
  else if decide (c = 13) then lit "\r"
  else if decide (c = 9) then lit "\t"
  else if (32 <=? c) && (c <=? 126) then [c]
  else if c <? 0x10000 then lit "\u" ++ hex4 c
  else
    let n := c - 0x10000 in
    lit "\u" ++ hex4 (N.lor 0xD800 (N.land (N.shiftr n 10) 0x3FF)) ++
    lit "\u" ++ hex4 (N.lor 0xDC00 (N.land n 0x3FF)).

Definition encode_basestring_ascii (s : str) : str :=
  dq ++ mbind escape_char s ++ dq.

(** ** Effects of the handler *)

(** The exceptions the code distinguishes. [RuntimeError] stands for any
    other subclass of [Exception], [SystemExit] for the exceptions that are
    not subclasses of [Exception]. *)
Inductive exn :=
  | ConnectionResetError
  | BrokenPipeError
  | OSError
  | ValueError
  | UnicodeEncodeError
  | RuntimeError
  | SystemExit.

Global Instance exn_eq_dec : EqDecision exn.
Proof. solve_decision. Defined.

(** [isinstance(e, Exception)]. *)
Definition is_Exception (e : exn) : bool :=
  match e with SystemExit => false | _ => true end.

(** The message of [send_error]: a literal, or an f-string that embeds
    [str(e)]. *)
Inductive message :=
  | Msg (s : str)
  | MsgExc (prefix : str) (e : exn).

(** What a handler does to its connection, in order. [SuperGET] is the call
    [super().do_GET()] that hands the request to [SimpleHTTPRequestHandler]. *)
Inductive event :=
  | SendResponse (code : N)
  | SendHeader (keyword value : str)
  | EndHeaders
  | Write (data : bytes)
  | SendError (code : N) (m : message)
  | SuperGET.

Inductive result (A : Type) :=
  | Return (a : A)
  | Raise (e : exn).
Arguments Return {A} a.
Arguments Raise {A} e.

(** A computation appends events to those already emitted, and returns or
    raises. *)
Definition M (A : Type) : Type := list event → result A * list event.

Global Instance M_ret : MRet M := λ A a tr, (Return a, tr).
Global Instance M_bind : MBind M := λ A B f c tr,
  match c tr with
  | (Return a, tr') => f a tr'
  | (Raise e, tr') => (Raise e, tr')
  end.

(** A call into [http.server] that returns. (A call that raises, as on a
    connection the client has closed, is a [library_call] of a [system].) *)
Definition emit (ev : event) : M unit := λ tr, (Return (), tr ++ [ev]).
Definition raise {A} (e : exn) : M A := λ tr, (Raise e, tr).

(** An operation that fails with the exception [e]. *)
Definition or_raise {A} (e : exn) (o : option A) : M A :=
  match o with
  | Some a => mret a
  | None => raise e
  end.

(** [try: c except Exception as e: h e]. *)
Definition try_except {A} (c : M A) (h : exn → M A) : M A := λ tr,
  match c tr with
  | (Raise e, tr') => if is_Exception e then h e tr' else (Raise e, tr')
  | r => r
  end.

(** A [for] loop that collects one value per element. *)
Fixpoint for_each {A B} (f : A → M B) (l : list A) : M (list B) :=
  match l with
  | [] => mret []
  | x :: l' => y ← f x; ys ← for_each f l'; mret (y :: ys)
  end.

Definition send_response (code : N) : M unit := emit (SendResponse code).
Definition send_header (k v : str) : M unit := emit (SendHeader k v).
Definition end_headers : M unit := emit EndHeaders.
Definition wfile_write (data : bytes) : M unit := emit (Write data).
Definition send_error (code : N) (m : message) : M unit := emit (SendError code m).
Definition super_do_GET : M unit := emit SuperGET.

(** ** The module constants *)

Definition MAX_CONCURRENT_REQUESTS : nat := 100.

Definition DARK_THEME : str := lit "
:root {
    --bg: #121212;
    --text: #e0e0e0;
    --accent: #bb86fc;
    --border: #333;
}
body {
    font-family: 'Segoe UI', sans-serif;
    background: var(--bg);
    color: var(--text);
    margin: 0;
    padding: 20px;
    line-height: 1.6;
}
a {
    color: var(--accent);
    text-decoration: none;
}
a:hover {
    text-decoration: underline;
}
.container {
    max-width: 800px;
    margin: 0 auto;
    background: #1e1e1e;
    border-radius: 8px;
    padding: 20px;
    box-shadow: 0 4px 6px rgba(0,0,0,0.3);
}
.header {
    display: flex;
    justify-content: space-between;
    align-items: center;
    margin-bottom: 20px;
    padding-bottom: 10px;
    border-bottom: 1px solid var(--border);
}
.file-list {
    margin: 0;
    padding: 0;
    list-style: none;
}
.file-item {
    display: flex;
    justify-content: space-between;
    padding: 8px 12px;
    margin: 4px 0;
    border-radius: 4px;
}
.file-item:hover {
    background: #333;
}
.file-size {
    color: #aaa;
    font-family: monospace;
}
".

(** ** The handler *)

Section Handler.

(** A Python [float] is kept abstract; [float_repr] is what [json.dumps]
    writes for one ([float.__repr__] for a finite value such as a time). *)
Context {pyfloat : Type} (float_repr : pyfloat → str).

(** What a request depends on besides its path. [base_path] is the value
    [Path(os.getcwd())] of [__init__]. *)
Record world := World {
  fs_root : node;
  base_path : Path;
  gethostname : str;
  time_time : pyfloat;
  time_ctime : str
}.

(** The values of the dictionary [handle_api] serialises. *)
Inductive jvalue :=
  | JStr (s : str)
  | JFloat (f : pyfloat).

Definition dumps_value (v : jvalue) : str :=
  match v with
  | JStr s => encode_basestring_ascii s
  | JFloat f => float_repr f
  end.

(** [json.dumps] of a flat dictionary, with the default separators. *)
Definition dumps (d : list (str * jvalue)) : str :=
  lit "{" ++
  join (lit ", ") ((λ kv, encode_basestring_ascii kv.1 ++ lit ": " ++ dumps_value kv.2) <$> d) ++
  lit "}".

Definition len (s : str) : N := N.of_nat (length s).

Definition status_dict (w : world) : list (str * jvalue) :=
  [(lit "status", JStr (lit "ok"));
   (lit "timestamp", JFloat (time_time w));
   (lit "host", JStr (gethostname w));
   (lit "message", JStr (lit "VM-compatible dark mode server"))].

Definition handle_api (w : world) : M unit :=
  response ← or_raise UnicodeEncodeError (utf8 (dumps (status_dict w)));
  send_response 200;;
  send_header (lit "Content-Type") (lit "application/json");;
  send_header (lit "Content-Length") (str_of_int (len response));;
  end_headers;;
  wfile_write response.

(** One element of [items]: display name, kind, size label. *)
Definition item : Type := str * str * str.

(** The tuple appended for one child of the listed directory (the body of
    the [for] loop). *)
Definition child_item (w : world) (child : Path) : M item :=
  if is_dir (fs_root w) child then
    mret (name child ++ lit "/", lit "Directory", lit "-")
  else
    sz ← or_raise OSError (stat_size (fs_root w) child);
    if 0 <? sz then
      sz' ← or_raise OSError (stat_size (fs_root w) child);
      mret (name child, lit "File", format_kib sz')
    else
      mret (name child, lit "File", lit "0 KB").

(** The [<li>] element generated for one element of [items]. *)
Definition file_item (it : item) : str :=
  lit "<li class=" ++ dq ++ lit "file-item" ++ dq ++ lit ">" ++
  lit "<a href=" ++ dq ++ it.1.1 ++ dq ++ lit ">" ++ it.1.1 ++ lit "</a>" ++
  lit "<span class=" ++ dq ++ lit "file-size" ++ dq ++ lit ">" ++ it.2 ++ lit "</span>" ++
  lit "</li>".

Definition render_html (title ctime file_items : str) : str :=
  lit "<!DOCTYPE html>
<html>
<head>
    <title>" ++ title ++ lit "</title>
    <meta name=" ++ dq ++ lit "viewport" ++ dq ++ lit " content=" ++ dq ++
  lit "width=device-width, initial-scale=1" ++ dq ++ lit ">
    <style>" ++ DARK_THEME ++ lit "</style>
</head>
<body>
    <div class=" ++ dq ++ lit "container" ++ dq ++ lit ">
        <div class=" ++ dq ++ lit "header" ++ dq ++ lit ">
            <h1>" ++ title ++ lit "</h1>
            <small>" ++ ctime ++ lit "</small>
        </div>
        <ul class=" ++ dq ++ lit "file-list" ++ dq ++ lit ">
            " ++ file_items ++ lit "
        </ul>
    </div>
</body>
</html>".

(** The part of [send_directory_listing] that builds [items]. *)
Definition listing_items (w : world) (path : Path) : M (list item) :=
  let items := if decide (path ≠ base_path w)
               then [(lit "../", lit "Parent Directory", lit "-")] else [] in
  children ← or_raise OSError (iterdir (fs_root w) path);
  entries ← for_each (child_item w) (sorted children);
  mret (items ++ entries).

Definition listing_html (w : world) (path : Path) : M str :=
  rel ← or_raise ValueError (relative_to path (base_path w));
  let title := lit "Directory listing for /" ++ str_of_relpath rel in
  items ← listing_items w path;
  let file_items := join [10] (file_item <$> items) in
  mret (render_html title (time_ctime w) file_items).

Definition send_directory_listing (w : world) (path : Path) : M unit :=
  try_except
    (html ← listing_html w path;
     send_response 200;;
     send_header (lit "Content-Type") (lit "text/html");;
     send_header (lit "Content-Length") (str_of_int (len html));;
     end_headers;;
     data ← or_raise UnicodeEncodeError (utf8 html);
     wfile_write data)
    (λ e, send_error 500 (MsgExc (lit "Directory listing failed: ") e)).

(** The path object [handle_file_or_dir] builds from the request path. *)
Definition target_path (w : world) (self_path : str) : Path :=
  truediv (base_path w) (lstrip 47 self_path).

Definition handle_file_or_dir (w : world) (self_path : str) : M unit :=
  let path := target_path w self_path in
  if negb (exists_ (fs_root w) path) then
    send_error 404 (Msg (lit "Not Found"))
  else if is_dir (fs_root w) path then
    send_directory_listing w path
  else
    super_do_GET.

Definition do_GET (w : world) (self_path : str) : M unit :=
  try_except
    (if decide (self_path = lit "/tcpstates") then handle_api w
     else handle_file_or_dir w self_path)
    (λ e, send_error 500 (MsgExc (lit "Server error: ") e)).

(** The events of one request, from an empty connection. *)
Definition run {A} (c : M A) : result A * list event := c [].

End Handler.

(** ** The request lifecycle under the semaphore *)

(** [threading.Semaphore]: a counter; [acquire] on a zero counter blocks,
    which is [None] here. *)
Module Semaphore.
Definition acquire (value : nat) : option nat :=
  match value with
  | O => None
  | S v => Some v
  end.
Definition release (value : nat) : nat := S value.
End Semaphore.

(** Where a handler thread is in [handle_one_request]:
    - [Accepted]: at [with self.semaphore], before [acquire] has returned;
    - [Handling]: in the body, [super().handle_one_request()], which reads
      the request and calls [do_GET];
    - [Leaving r]: the body has returned ([r = None]) or raised [r], and the
      [with] statement is about to release;
    - [Excepting e]: the slot is released and [e] is at the [except] clauses;
    - [Finalizing r]: at the [finally] clause, with [r] still propagating;
    - [Completed r]: the method has returned, or raised [r].
    The body is not looked into: every result of it is possible. *)
Inductive pc :=
  | Accepted
  | Handling
  | Leaving (r : option exn)
  | Excepting (e : exn)
  | Finalizing (r : option exn)
  | Completed (r : option exn).

Inductive log_record :=
  | LogWarning (msg : str)
  | LogError (msg : message).

Record thread := Thread {
  at_pc : pc;
  released : nat;
  close_connection : bool;
  log : list log_record
}.

(** The class attribute [semaphore], shared by all handlers, and the
    handler threads [ThreadingHTTPServer] has started. *)
Record state := State {
  semaphore : nat;
  threads : list thread
}.

(** The atomic steps of thread [i]. [Finish i r] ends the body with the
    result [r]. *)
Inductive action :=
  | Enter (i : nat)
  | Finish (i : nat) (r : option exn)
  | Exit (i : nat)
  | Except (i : nat)
  | Finally (i : nat).

Definition thread_of (a : action) : nat :=
  match a with
  | Enter i | Finish i _ | Exit i | Except i | Finally i => i
  end.

(** One step of a thread; the semaphore value is threaded through. [None]:
    the step is not enabled ([Enter] on a zero counter blocks). *)
Definition step_thread (a : action) (value : nat) (t : thread) : option (nat * thread) :=
  match a, at_pc t with
  | Enter _, Accepted =>
      v ← Semaphore.acquire value;
      Some (v, Thread Handling (released t) (close_connection t) (log t))
  | Finish _ r, Handling =>
      Some (value, Thread (Leaving r) (released t) (close_connection t) (log t))
  | Exit _, Leaving r =>
      Some (Semaphore.release value,
            Thread (match r with Some e => Excepting e | None => Finalizing None end)
                   (S (released t)) (close_connection t) (log t))
  | Except _, Excepting e =>
      Some (value,
        if decide (e = ConnectionResetError ∨ e = BrokenPipeError) then
          Thread (Finalizing None) (released t) (close_connection t)
                 (log t ++ [LogWarning (lit "Client disconnected prematurely")])
        else if is_Exception e then
          Thread (Finalizing None) (released t) (close_connection t)
                 (log t ++ [LogError (MsgExc (lit "Request failed: ") e)])
        else
          Thread (Finalizing (Some e)) (released t) (close_connection t) (log t))
  | Finally _, Finalizing r =>
      Some (value, Thread (Completed r) (released t) true (log t))
  | _, _ => None
  end.

Definition fire (a : action) (s : state) : option state :=
  t ← threads s !! thread_of a;
  vt ← step_thread a (semaphore s) t;
  Some (State vt.1 (<[thread_of a := vt.2]> (threads s))).

(** A schedule: the steps in the order they happen. *)
Fixpoint exec (acts : list action) (s : state) : option state :=
  match acts with
  | [] => Some s
  | a :: acts' => s' ← fire a s; exec acts' s'
  end.

(** [n] connections have been accepted and no handler has run yet. *)
Definition init (maximum n : nat) : state :=
  State maximum (replicate n (Thread Accepted 0 false [])).

(** A thread is past the gate while it holds a slot. *)
Definition holds_slot (t : thread) : bool :=
  match at_pc t with
  | Handling | Leaving _ => true
  | _ => false
  end.

Definition is_accepted (t : thread) : bool :=
  match at_pc t with
  | Accepted => true
  | _ => false
  end.

Definition count (P : thread → bool) (s : state) : nat :=
  length (filter (λ t, P t = true) (threads s)).

(** The schedule in which threads [0 .. n-1] enter, in order. *)
Definition enter_first (n : nat) : list action := Enter <$> seq 0 n.

(** The steps thread [i] takes from the end of its body to its return. *)
Definition leave (i : nat) (r : option exn) : list action :=
  [Finish i r; Exit i] ++ match r with Some _ => [Except i] | None => [] end ++ [Finally i].

(** ** Worlds used in examples *)

Definition www : list (str * node) :=
  [(lit "index.html", File 10); (lit "a.txt", File 0); (lit "b.txt", File 2048);
   (lit "a b", File 3); (lit "empty", Dir 4096 [])].

(** The server runs in [/srv/www]; [/etc] lies outside. *)
Definition example_root : node :=
  Dir 4096 [(lit "etc", Dir 4096 [(lit "passwd", File 1000)]);
            (lit "srv", Dir 4096 [(lit "www", Dir 4096 www)])].

(** The examples have one float, the time of the request. *)
Definition example_repr (f : unit) : str := lit "1793695080.25".

Definition example_world : world (pyfloat := unit) :=
  World example_root [lit "srv"; lit "www"] (lit "vm1") ()
        (lit "Tue Nov  3 08:38:00 2026").

(** A base directory whose only file is named [é], and one whose only file
    has a name with an undecodable byte (the surrogate U+DC80). *)
Definition accent_world : world (pyfloat := unit) :=
  World (Dir 4096 [([0xE9], File 1)]) [] (lit "vm1") () (lit "Tue Nov  3 08:38:00 2026").

Definition surrogate_world : world (pyfloat := unit) :=
  World (Dir 4096 [([0xDC80], File 1)]) [] (lit "vm1") () (lit "Tue Nov  3 08:38:00 2026").

(** ** Properties the specification speaks of *)

(** *** Resolution *)

(** The target of a request resolves to a location below the base directory. *)
Definition within_base {F} (w : @world F) (self_path : str) : Prop :=
  ∀ loc nd, resolve (fs_root w) (target_path w self_path) = Some (loc, nd) →
            (base_path w) `prefix_of` loc.

(** The base path is the canonical location of an existing directory, as
    [os.getcwd()] returns it. *)
Definition base_ok {F} (w : @world F) : Prop :=
  ∃ sz es, resolve (fs_root w) (base_path w) = Some (base_path w, Dir sz es).

(** The names a directory can hold: non-empty, without [/], not [.] or
    [..], and pairwise distinct. *)
Definition name_ok (n : str) : Prop :=
  n ≠ [] ∧ (47 ∉ n) ∧ n ≠ lit "." ∧ n ≠ lit "..".

Definition entries_ok (es : list (str * node)) : Prop :=
  Forall name_ok es.*1 ∧ NoDup es.*1.

(** *** Listings *)

Definition parent_item : item := (lit "../", lit "Parent Directory", lit "-").

(** [t] tenths is a nearest one-decimal value to [d / 1024]. *)
Definition nearest_tenth (d t : N) : Prop :=
  1024 * t ≤ 10 * d + 512 ∧ 10 * d ≤ 1024 * t + 512.

(** [d] is the size as a floating-point number holds it: within a relative
    error of [2^-53] of the size, hence the size itself below [2^53] bytes. *)
Definition float_of_size (st_size d : N) : Prop :=
  2 ^ 53 * d ≤ 2 ^ 53 * st_size + st_size ∧
  2 ^ 53 * st_size ≤ 2 ^ 53 * d + st_size.

(** The size label of a file that is not empty: the size, held as a
    floating-point number, in kibibytes with one decimal place, followed by
    [" KB"]. *)
Definition kib_label (st_size : N) (label : str) : Prop :=
  ∃ d t, float_of_size st_size d ∧ nearest_tenth d t ∧
       length (str_of_int (t `mod` 10)) = 1%nat ∧
       label = str_of_int (t `div` 10) ++ lit "." ++ str_of_int (t `mod` 10) ++ lit " KB".

(** The sizes the operating system reports: an [off_t] is below [2^63]. *)
Definition sizes_ok (es : list (str * node)) : Prop :=
  Forall (λ e, match e.2 with File st_size => st_size < 2 ^ 63 | Dir _ _ => True end) es.

(** What the listing shows for a child [e] of the directory, as the
    specification words it: the display name, and the size label (with the
    label of the code for a file of size zero). *)
Definition shown_name (e : str * node) (it : item) : Prop :=
  match e.2 with
  | Dir _ _ => it.1.1 = e.1 ++ lit "/" ∧ it.2 = lit "-"
  | File _ => it.1.1 = e.1
  end.

Definition shown_size (e : str * node) (it : item) : Prop :=
  match e.2 with
  | Dir _ _ => it.2 = lit "-"
  | File sz => if decide (sz = 0) then it.2 = lit "0 KB" else kib_label sz it.2
  end.

(** The hyperlink and size label of an element of [items]: the display name
    is the [href] attribute and the link text, as it is. *)
Definition hyperlink (it : item) : str :=
  lit "<a href=" ++ dq ++ it.1.1 ++ dq ++ lit ">" ++ it.1.1 ++ lit "</a>" ++
  lit "<span class=" ++ dq ++ lit "file-size" ++ dq ++ lit ">" ++ it.2 ++ lit "</span>".

Definition infix (x s : str) : Prop := ∃ pre post, s = pre ++ x ++ post.

(** The events of a directory listing that is sent in full. *)
Definition listing_events (html : str) (data : bytes) : list event :=
  [SendResponse 200;
   SendHeader (lit "Content-Type") (lit "text/html");
   SendHeader (lit "Content-Length") (str_of_int (len html));
   EndHeaders;
   Write data].

(** *** The status document *)

Definition is_ascii (s : str) : Prop := Forall (λ c, c < 128) s.

(** The text of the status document, written out. *)
Definition status_text (timestamp host : str) : str :=
  lit "{" ++ dq ++ lit "status" ++ dq ++ lit ": " ++ dq ++ lit "ok" ++ dq ++
  lit ", " ++ dq ++ lit "timestamp" ++ dq ++ lit ": " ++ timestamp ++
  lit ", " ++ dq ++ lit "host" ++ dq ++ lit ": " ++ host ++
  lit ", " ++ dq ++ lit "message" ++ dq ++ lit ": " ++
  dq ++ lit "VM-compatible dark mode server" ++ dq ++ lit "}".

(** *** The gate *)

(** A thread has left the [with] block. *)
Definition exited (t : thread) : bool :=
  match at_pc t with
  | Excepting _ | Finalizing _ | Completed _ => true
  | _ => false
  end.

(** The exception that leaves [handle_one_request], if any: the handlers
    catch every [Exception]. *)
Definition propagated (r : option exn) : option exn :=
  match r with
  | Some e => if is_Exception e then None else Some e
  | None => None
  end.

(** The server as [run_server] starts it: the semaphore of the handler class
    is [Semaphore(MAX_CONCURRENT_REQUESTS)]. *)
Definition server_init (n : nat) : state := init MAX_CONCURRENT_REQUESTS n.

(** ** Definitions the proofs use *)

(** The tuple [child_item] returns for a child, read off the directory
    entry. *)
Definition entry_item (e : str * node) : item :=
  match e.2 with
  | Dir _ _ => (e.1 ++ lit "/", lit "Directory", lit "-")
  | File sz => (e.1, lit "File", if 0 <? sz then format_kib sz else lit "0 KB")
  end.

(** The entries of a directory ordered by name. *)
Definition by_name (es : list (str * node)) : list (str * node) :=
  merge_sort (λ e1 e2, ¬ str_lt e2.1 e1.1) es.

(** The stack of runs a merge sort keeps, mapped through [f]. *)
Definition stack_fmap {A B} (f : A → B) (st : list (option (list A)))
  : list (option (list B)) :=
  (λ o : option (list A), (λ l : list A, f <$> l) <$> o) <$> st.

(** The number of releases a thread has made, given where it is; and the
    connection of a thread that returned is marked for closing. *)
Definition thread_ok (t : thread) : Prop :=
  released t = (if exited t then 1 else 0)%nat ∧
  (∀ r, at_pc t = Completed r → close_connection t = true).

(** The invariant of the gate for the limit [maximum]. *)
Definition gate_inv (maximum : nat) (s : state) : Prop :=
  (semaphore s + count holds_slot s = maximum)%nat ∧
  Forall thread_ok (threads s).

(** The steps of a schedule that all belong to one thread, on that thread
    and the semaphore alone. *)
Fixpoint exec_thread (acts : list action) (value : nat) (t : thread)
  : option (nat * thread) :=
  match acts with
  | [] => Some (value, t)
  | a :: acts' => vt ← step_thread a value t; exec_thread acts' vt.1 vt.2
  end.

(** ** Further definitions *)

(** The events of a directory listing up to the end of the headers. *)
Definition listing_headers (html : str) : list event :=
  [SendResponse 200;
   SendHeader (lit "Content-Type") (lit "text/html");
   SendHeader (lit "Content-Length") (str_of_int (len html));
   EndHeaders].

(** A code point [str.encode('utf-8')] refuses. *)
Definition unencodable (c : N) : Prop := is_surrogate c = true ∨ 0x110000 ≤ c.

(** The number of steps a thread has left at most. *)
Definition remaining (t : thread) : nat :=
  match at_pc t with
  | Accepted => 5
  | Handling => 4
  | Leaving _ => 3
  | Excepting _ => 2
  | Finalizing _ => 1
  | Completed _ => 0
  end.

Definition work (s : state) : nat := sum_list (remaining <$> threads s).

(** A thread is between its acquire and its return. *)
Definition is_active (t : thread) : bool :=
  match at_pc t with
  | Accepted | Completed _ => false
  | _ => true
  end.

Definition is_completed (t : thread) : bool :=
  match at_pc t with
  | Completed _ => true
  | _ => false
  end.

(** What [handle_one_request] logs, given how its body ended. *)
Definition logged (r : option exn) : list log_record :=
  match r with
  | Some ConnectionResetError | Some BrokenPipeError =>
      [LogWarning (lit "Client disconnected prematurely")]
  | Some SystemExit | None => []
  | Some e => [LogError (MsgExc (lit "Request failed: ") e)]
  end.

(** Printable ASCII: no control character, nothing above [~]. *)
Definition is_printable (s : str) : Prop := Forall (λ c, 32 ≤ c ≤ 126) s.

(** ** The handler on an operating system

    Above, a request runs on a directory tree that stays as it is, and on a
    connection that takes everything written to it. Here every call that
    leaves the handler is answered by a [system]: [os.stat], [os.listdir]
    and [socket.gethostname] may fail, with any error number, and each call
    into [http.server] may raise. The answers depend on the number of calls
    made before, so that they may change while a request is handled. *)

(** The outcome of [os.stat(p)]: the fields of the result that the handler
    reads ([st_size] is an [off_t], below [2^63]), an [OSError] with its
    [errno], or the [ValueError] raised for a path that cannot be passed to
    the system. *)
Inductive stat_outcome :=
  | StatOk (is_directory : bool) (st_size : N)
  | StatOSError (errno : N)
  | StatValueError.

(** The outcome of [os.listdir(p)]: the names, in the order of the system. *)
Inductive listdir_outcome :=
  | ListdirOk (names : list str)
  | ListdirOSError (errno : N)
  | ListdirValueError.

(** The answers of a system to the call number [t] of a request. For
    [socket_gethostname], [None] stands for [OSError]; [call_raises t ev] is
    [Some e] when the call into [http.server] that [ev] stands for raises [e]
    instead of returning. *)
Record system := System {
  os_stat : nat → Path → stat_outcome;
  os_listdir : nat → Path → listdir_outcome;
  socket_gethostname : nat → option str;
  call_raises : nat → event → option exn
}.

(** The calls into [http.server] that have returned, and the number of calls
    made so far. *)
Record io_state := IOState {
  sent : list event;
  clock : nat
}.

Definition IO (A : Type) : Type := io_state → result A * io_state.

Global Instance IO_ret : MRet IO := λ A a s, (Return a, s).
Global Instance IO_bind : MBind IO := λ A B f c s,
  match c s with
  | (Return a, s') => f a s'
  | (Raise e, s') => (Raise e, s')
  end.

Definition io_raise {A} (e : exn) : IO A := λ s, (Raise e, s).

Definition io_or_raise {A} (e : exn) (o : option A) : IO A :=
  match o with
  | Some a => mret a
  | None => io_raise e
  end.

(** [try: c except Exception as e: h e]. *)
Definition io_try {A} (c : IO A) (h : exn → IO A) : IO A := λ s,
  match c s with
  | (Raise e, s') => if is_Exception e then h e s' else (Raise e, s')
  | r => r
  end.

Fixpoint io_for_each {A B} (f : A → IO B) (l : list A) : IO (list B) :=
  match l with
  | [] => mret []
  | x :: l' => y ← f x; ys ← io_for_each f l'; mret (y :: ys)
  end.

(** A call answered by the system. *)
Definition system_call {A} (answer : nat → A) : IO A := λ s,
  (Return (answer (clock s)), IOState (sent s) (S (clock s))).

(** A call into [http.server]: it returns and is recorded, or it raises. *)
Definition library_call (sys : system) (ev : event) : IO unit := λ s,
  match call_raises sys (clock s) ev with
  | Some e => (Raise e, IOState (sent s) (S (clock s)))
  | None => (Return (), IOState (sent s ++ [ev]) (S (clock s)))
  end.

(** The error numbers [pathlib] takes for "not there" ([_IGNORED_ERRNOS]):
    [ENOENT], [ENOTDIR], [EBADF], [ELOOP]. *)
Definition ENOENT : N := 2.
Definition EBADF : N := 9.
Definition ENOTDIR : N := 20.
Definition ENAMETOOLONG : N := 36.
Definition ELOOP : N := 40.

Definition ignored_errno (errno : N) : bool :=
  bool_decide (errno ∈ [ENOENT; ENOTDIR; EBADF; ELOOP]).

Section System.

Context {pyfloat : Type} (float_repr : pyfloat → str) (sys : system).

(** [p.stat()], as a pair of [S_ISDIR(st_mode)] and [st_size]. *)
Definition path_stat (p : Path) : IO (bool * N) :=
  o ← system_call (λ t, os_stat sys t p);
  match o with
  | StatOk d st_size => mret (d, st_size)
  | StatOSError _ => io_raise OSError
  | StatValueError => io_raise ValueError
  end.

(** [p.exists()], as [pathlib] defines it in Python 3.11: [False] for an
    ignored error number and for [ValueError]; any other [OSError] is raised
    again. *)
Definition path_exists (p : Path) : IO bool :=
  o ← system_call (λ t, os_stat sys t p);
  match o with
  | StatOk _ _ => mret true
  | StatOSError errno => if ignored_errno errno then mret false else io_raise OSError
  | StatValueError => mret false
  end.

(** [p.is_dir()], with the same treatment of errors. *)
Definition path_is_dir (p : Path) : IO bool :=
  o ← system_call (λ t, os_stat sys t p);
  match o with
  | StatOk d _ => mret d
  | StatOSError errno => if ignored_errno errno then mret false else io_raise OSError
  | StatValueError => mret false
  end.

(** [p.iterdir()], consumed at once by [sorted]. *)
Definition path_iterdir (p : Path) : IO (list Path) :=
  o ← system_call (λ t, os_listdir sys t p);
  match o with
  | ListdirOk names => mret ((λ n, p ++ [n]) <$> names)
  | ListdirOSError _ => io_raise OSError
  | ListdirValueError => io_raise ValueError
  end.

Definition status_dict_on (w : @world pyfloat) (host : str) : list (str * jvalue) :=
  [(lit "status", JStr (lit "ok"));
   (lit "timestamp", JFloat (time_time w));
   (lit "host", JStr host);
   (lit "message", JStr (lit "VM-compatible dark mode server"))].

Definition handle_api_on (w : @world pyfloat) : IO unit :=
  host ← system_call (socket_gethostname sys);
  host ← io_or_raise OSError host;
  response ← io_or_raise UnicodeEncodeError (utf8 (dumps float_repr (status_dict_on w host)));
  library_call sys (SendResponse 200);;
  library_call sys (SendHeader (lit "Content-Type") (lit "application/json"));;
  library_call sys (SendHeader (lit "Content-Length") (str_of_int (len response)));;
  library_call sys EndHeaders;;
  library_call sys (Write response).

Definition child_item_on (child : Path) : IO item :=
  d ← path_is_dir child;
  if d : bool then
    mret (name child ++ lit "/", lit "Directory", lit "-")
  else
    st ← path_stat child;
    if 0 <? st.2 then
      st' ← path_stat child;
      mret (name child, lit "File", format_kib st'.2)
    else
      mret (name child, lit "File", lit "0 KB").

Definition listing_items_on (w : @world pyfloat) (path : Path) : IO (list item) :=
  let items := if decide (path ≠ base_path w)
               then [(lit "../", lit "Parent Directory", lit "-")] else [] in
  children ← path_iterdir path;
  entries ← io_for_each child_item_on (sorted children);
  mret (items ++ entries).

Definition listing_html_on (w : @world pyfloat) (path : Path) : IO str :=
  rel ← io_or_raise ValueError (relative_to path (base_path w));
  let title := lit "Directory listing for /" ++ str_of_relpath rel in
  items ← listing_items_on w path;
  let file_items := join [10] (file_item <$> items) in
  mret (render_html title (time_ctime w) file_items).

Definition send_directory_listing_on (w : @world pyfloat) (path : Path) : IO unit :=
  io_try
    (html ← listing_html_on w path;
     library_call sys (SendResponse 200);;
     library_call sys (SendHeader (lit "Content-Type") (lit "text/html"));;
     library_call sys (SendHeader (lit "Content-Length") (str_of_int (len html)));;
     library_call sys EndHeaders;;
     data ← io_or_raise UnicodeEncodeError (utf8 html);
     library_call sys (Write data))
    (λ e, library_call sys (SendError 500 (MsgExc (lit "Directory listing failed: ") e))).

Definition handle_file_or_dir_on (w : @world pyfloat) (self_path : str) : IO unit :=
  let path := target_path w self_path in
  found ← path_exists path;
  if negb found then
    library_call sys (SendError 404 (Msg (lit "Not Found")))
  else
    d ← path_is_dir path;
    if d : bool then send_directory_listing_on w path
    else library_call sys SuperGET.

Definition do_GET_on (w : @world pyfloat) (self_path : str) : IO unit :=
  io_try
    (if decide (self_path = lit "/tcpstates") then handle_api_on w
     else handle_file_or_dir_on w self_path)
    (λ e, library_call sys (SendError 500 (MsgExc (lit "Server error: ") e))).

End System.

(** The outcome of one request, and the calls into [http.server] that
    returned. *)
Definition run_on {A} (c : IO A) : result A * list event :=
  let (r, s) := c (IOState [] 0) in (r, sent s).

(** *** Systems over a directory tree *)

(** [stat] as the kernel does it on a tree: a component below a regular file
    is [ENOTDIR], a name longer than [name_max] bytes is [ENAMETOOLONG], a
    name that is not there is [ENOENT]. *)
Definition byte_length (s : str) : N := len (default s (utf8 s)).

Definition too_long (name_max : option N) (s : str) : bool :=
  match name_max with
  | Some m => m <? byte_length s
  | None => false
  end.

Fixpoint stat_walk (name_max : option N) (up : list (str * node)) (cur : node)
    (parts : Path) : N + node :=
  match parts with
  | [] => inr cur
  | p :: ps =>
      match cur with
      | File _ => inl ENOTDIR
      | Dir _ es =>
          if decide (p = lit ".") then stat_walk name_max up cur ps
          else if decide (p = lit "..") then
            match up with
            | [] => stat_walk name_max [] cur ps
            | (_, parent) :: up' => stat_walk name_max up' parent ps
            end
          else if too_long name_max p then inl ENAMETOOLONG
          else
            match lookup_entry p es with
            | None => inl ENOENT
            | Some nd => stat_walk name_max ((p, cur) :: up) nd ps
            end
      end
  end.

Definition tree_stat (name_max : option N) (root : node) (p : Path) : stat_outcome :=
  match stat_walk name_max [] root p with
  | inr (Dir st_size _) => StatOk true st_size
  | inr (File st_size) => StatOk false st_size
  | inl errno => StatOSError errno
  end.

Definition tree_listdir (name_max : option N) (root : node) (p : Path) : listdir_outcome :=
  match stat_walk name_max [] root p with
  | inr (Dir _ es) => ListdirOk es.*1
  | inr (File _) => ListdirOSError ENOTDIR
  | inl errno => ListdirOSError errno
  end.

(** A system whose files are those of a tree that does not change, with a
    client that stays connected. *)
Definition tree_system (name_max : option N) (root : node) (host : str) : system :=
  System (λ _, tree_stat name_max root) (λ _, tree_listdir name_max root)
         (λ _, Some host) (λ _ _, None).

(** Linux: [NAME_MAX] is 255. *)
Definition NAME_MAX : N := 255.

(** A directory with one file, whose name is 90 spaces; the percent-encoded
    form of that name has 270 characters. *)
Definition long_name : str := replicate 90 32.
Definition long_request : str := 47 :: mjoin (replicate 90 (lit "%20")).

Definition long_root : node :=
  Dir 4096 [(lit "srv", Dir 4096 [(lit "www", Dir 4096 [(long_name, File 5)])])].

Definition long_world : world (pyfloat := unit) :=
  World long_root [lit "srv"; lit "www"] (lit "vm1") tt (lit "Tue Nov  3 10:38:00 2026").

(** *** What the theorems say of a system *)

(** [stat] reports that there is nothing at the path: [exists()] and
    [is_dir()] are [False]. *)
Definition reported_absent (o : stat_outcome) : Prop :=
  match o with
  | StatOk _ _ => False
  | StatOSError errno => ignored_errno errno = true
  | StatValueError => True
  end.

(** [stat] fails with an error that [exists()] raises again. *)
Definition reported_error (o : stat_outcome) : Prop :=
  match o with
  | StatOSError errno => ignored_errno errno = false
  | _ => False
  end.

(** Every call into [http.server] returns: the client stays connected. *)
Definition connected (sys : system) : Prop :=
  ∀ t ev, call_raises sys t ev = None.

(** The system answers, at every time, as the tree of [w] does. *)
Definition stat_of_tree (root : node) (p : Path) (o : stat_outcome) : Prop :=
  match resolve root p with
  | Some (_, Dir st_size _) => o = StatOk true st_size
  | Some (_, File st_size) => o = StatOk false st_size
  | None => reported_absent o
  end.

Definition listdir_of_tree (root : node) (p : Path) (o : listdir_outcome) : Prop :=
  match resolve root p with
  | Some (_, Dir _ es) => o = ListdirOk es.*1
  | _ => ∀ names, o ≠ ListdirOk names
  end.

Definition static_tree {F} (sys : system) (w : @world F) : Prop :=
  (∀ t p, stat_of_tree (fs_root w) p (os_stat sys t p)) ∧
  (∀ t p, listdir_of_tree (fs_root w) p (os_listdir sys t p)) ∧
  (∀ t, socket_gethostname sys t = Some (gethostname w)) ∧
  connected sys.

(** The computation [c] on a system does what [c'] does on the tree. *)
Definition simulates {A} (c : IO A) (c' : M A) : Prop :=
  ∀ s, ∃ t, c s = ((c' (sent s)).1, IOState (c' (sent s)).2 t).

(** The computation [c] makes no call into [http.server], and raises only
    subclasses of [Exception]. *)
Definition quiet {A} (c : IO A) : Prop :=
  ∀ s, ∃ r t, c s = (r, IOState (sent s) t) ∧
              match r with Raise e => is_Exception e = true | Return _ => True end.

(** The first call into [http.server] of a request that is answered. *)
Definition first_call (ev : event) : Prop :=
  ev = SendResponse 200 ∨
  ev = SendError 404 (Msg (lit "Not Found")) ∨
  (∃ e, ev = SendError 500 (MsgExc (lit "Server error: ") e)) ∨
  (∃ e, ev = SendError 500 (MsgExc (lit "Directory listing failed: ") e)) ∨
  ev = SuperGET.

(** * Proofs *)

(** ** Strings and paths *)

Lemma lstrip_not_head c s : ∀ s', lstrip c s ≠ c :: s'.
Proof.
  induction s as [|x s IH]; intros s'; simpl; [done|].
  case_decide; [apply IH|]. intros [=]. congruence.
Qed.

Lemma truediv_relative p s : head s ≠ Some 47 → truediv p s = p ++ parse_parts s.
Proof.
  destruct s as [|c s]; [done|]. simpl. intros Hc.
  unfold truediv. destruct (decide (c = 47)) as [->|Hne]; [done|].
  destruct c as [|q]; [done|].
  do 6 (destruct q as [q|q|]; try done).
Qed.

Lemma target_path_eq {F} (w : @world F) self_path :
  target_path w self_path = base_path w ++ parse_parts (lstrip 47 self_path).
Proof.
  unfold target_path. apply truediv_relative.
  destruct (lstrip 47 self_path) as [|c s'] eqn:E; [done|].
  simpl. intros [= ->]. by eapply lstrip_not_head.
Qed.

Lemma parse_parts_elem p s : p ∈ parse_parts s → p ≠ [] ∧ p ≠ lit ".".
Proof. unfold parse_parts. rewrite list_elem_of_filter. tauto. Qed.

Lemma split_nonempty sep s : split sep s ≠ [].
Proof. destruct s as [|c s]; simpl; [done|]. case_decide; [done|]. by case_match. Qed.

Lemma split_app_sep s1 s2 :
  split 47 (s1 ++ 47 :: s2) = split 47 s1 ++ split 47 s2.
Proof.
  induction s1 as [|c s1 IH]; simpl.
  - done.
  - case_decide; [by rewrite IH|].
    rewrite IH. pose proof (split_nonempty 47 s1) as Hne.
    by destruct (split 47 s1).
Qed.

Lemma parse_parts_lstrip s : parse_parts (lstrip 47 s) = parse_parts s.
Proof.
  induction s as [|c s IH]; [done|]. simpl. case_decide as Hc; [|done].
  subst c. rewrite IH. unfold parse_parts. simpl.
  by rewrite filter_cons_False by (by intros [? _]).
Qed.

Lemma target_path_parse {F} (w : @world F) s :
  target_path w s = base_path w ++ parse_parts s.
Proof. by rewrite target_path_eq, parse_parts_lstrip. Qed.

(** ** Resolution *)

Lemma walk_app up cur p1 p2 :
  walk up cur (p1 ++ p2) =
  walk up cur p1 ≫= λ r, walk r.1 r.2 p2.
Proof.
  revert up cur. induction p1 as [|p p1 IH]; intros up cur; simpl; [done|].
  destruct cur as [|sz es]; [done|].
  repeat case_decide; try apply IH.
  - destruct up as [|[? parent] up']; apply IH.
  - destruct (lookup_entry p es); [apply IH|done].
Qed.

(** Without [.] and [..] components, resolution only descends. *)
Lemma walk_descends up cur parts up' nd :
  Forall (λ p, p ≠ lit "." ∧ p ≠ lit "..") parts →
  walk up cur parts = Some (up', nd) →
  location up' = location up ++ parts.
Proof.
  intros Hparts. revert up cur.
  induction Hparts as [|p ps [Hd Hdd] _ IH]; intros up cur; simpl.
  - intros [= <- <-]. by rewrite app_nil_r.
  - destruct cur as [|sz es]; [done|].
    rewrite !decide_False by done.
    destruct (lookup_entry p es) as [c|]; [|done].
    intros Hw. apply IH in Hw. rewrite Hw. unfold location. simpl.
    by rewrite reverse_cons, <-app_assoc.
Qed.

Lemma resolve_app root p1 p2 loc nd :
  resolve root (p1 ++ p2) = Some (loc, nd) →
  ∃ up1 nd1, walk [] root p1 = Some (up1, nd1) ∧
             walk up1 nd1 p2 ≫= (λ r, Some (location r.1, r.2)) = Some (loc, nd).
Proof.
  unfold resolve. rewrite walk_app.
  destruct (walk [] root p1) as [[up1 nd1]|]; [|done]. simpl.
  intros H. exists up1, nd1. split; [done|].
  destruct (walk up1 nd1 p2) as [[??]|]; done.
Qed.

Lemma resolve_below_base {F} (w : @world F) parts loc nd :
  base_ok w →
  Forall (λ p, p ≠ lit "." ∧ p ≠ lit "..") parts →
  resolve (fs_root w) (base_path w ++ parts) = Some (loc, nd) →
  loc = base_path w ++ parts.
Proof.
  intros (sz & es & Hbase) Hparts Hres.
  apply resolve_app in Hres as (up1 & nd1 & Hw1 & Hw2).
  unfold resolve in Hbase. rewrite Hw1 in Hbase. simpl in Hbase.
  injection Hbase as Hloc _.
  destruct (walk up1 nd1 parts) as [[up' nd']|] eqn:Hw; [|done].
  simpl in Hw2. injection Hw2 as <- <-.
  apply walk_descends in Hw; [|done]. by rewrite Hw, Hloc.
Qed.

Lemma parse_parts_plain s :
  lit ".." ∉ parse_parts s →
  Forall (λ p, p ≠ lit "." ∧ p ≠ lit "..") (parse_parts s).
Proof.
  intros Hdd. apply Forall_forall. intros p Hp. split.
  - by apply parse_parts_elem in Hp as [_ ?].
  - intros ->. by apply Hdd.
Qed.

(** ** C1 *)

(** C1, as amended: the target of a request is the base path with the
    segments of the request path appended as they are: the segments between
    slashes, without the empty ones and the [.] ones; a [..] segment is kept
    and nothing is checked. In a directory tree without symbolic links, when
    none of the segments is [..] the target resolves to a location within the
    base directory. *)
Theorem resolution_within_base {F} (w : @world F) (self_path : str) :
  target_path w self_path =
    base_path w ++ filter (λ seg, seg ≠ [] ∧ seg ≠ lit ".") (split 47 self_path) ∧
  (lit ".." ∈ split 47 self_path → lit ".." ∈ target_path w self_path) ∧
  (base_ok w → lit ".." ∉ split 47 self_path → within_base w self_path).
Proof.
  assert (target_path w self_path = base_path w ++ parse_parts self_path) as Heq
    by apply target_path_parse.
  split; [done|]. split.
  - intros Hdd. rewrite Heq, elem_of_app. right.
    unfold parse_parts. by rewrite list_elem_of_filter.
  - intros Hbase Hdd loc nd. rewrite Heq. intros Hres.
    apply resolve_below_base in Hres; [|done|].
    + subst loc. by apply prefix_app_r.
    + apply parse_parts_plain. intros Hin. apply Hdd. unfold parse_parts in Hin.
      by apply list_elem_of_filter in Hin as [_ Hin].
Qed.

Lemma resolution_within_base_witness :
  within_base example_world (lit "/empty/").
Proof.
  apply resolution_within_base.
  - eexists _, _. vm_compute. reflexivity.
  - apply (bool_decide_unpack _). vm_compute. reflexivity.
Defined.

(** C1 fails as stated: a request for [/../../etc] resolves to the directory
    [/etc] outside the base directory [/srv/www], and is answered with its
    listing, not with 404. *)
Lemma traversal_leaves_base :
  lit "/../../etc" ≠ lit "/tcpstates" ∧
  resolve (fs_root example_world) (target_path example_world (lit "/../../etc")) =
    Some ([lit "etc"], Dir 4096 [(lit "passwd", File 1000)]) ∧
  ¬ within_base example_world (lit "/../../etc") ∧
  head (run (do_GET example_repr example_world (lit "/../../etc"))).2 =
    Some (SendResponse 200).
Proof.
  split; [by vm_compute|]. split; [by vm_compute|]. split; [|by vm_compute].
  intros H.
  specialize (H [lit "etc"] (Dir 4096 [(lit "passwd", File 1000)])).
  destruct H as [k Hk]; [by vm_compute|].
  vm_compute in Hk. discriminate Hk.
Qed.

(** ** Sorting *)

Section merge_sort_fmap.
Context {A B : Type} (f : A → B).
Context (R : relation A) `{!RelDecision R} (R' : relation B) `{!RelDecision R'}.
Hypothesis R_f : ∀ x y, R x y ↔ R' (f x) (f y).

Lemma list_merge_fmap l1 l2 :
  list_merge R' (f <$> l1) (f <$> l2) = f <$> list_merge R l1 l2.
Proof.
  revert l2. induction l1 as [|x1 l1 IH1]; intros l2.
  - by rewrite fmap_nil, !list_merge_nil_l.
  - induction l2 as [|x2 l2 IH2]; [by rewrite fmap_nil, !list_merge_nil_r|].
    rewrite !fmap_cons, !list_merge_cons.
    destruct (decide (R x1 x2)) as [H|H], (decide (R' (f x1) (f x2))) as [H'|H'];
      try (by apply R_f in H); try (by apply R_f in H').
    + rewrite fmap_cons. f_equal. rewrite <-IH1. by rewrite fmap_cons.
    + rewrite fmap_cons. f_equal. rewrite <-IH2. by rewrite fmap_cons.
Qed.


Lemma merge_list_to_stack_fmap st (l : list A) :
  merge_list_to_stack R' (stack_fmap f st) (f <$> l) =
  stack_fmap f (merge_list_to_stack R st l).
Proof.
  unfold stack_fmap.
  revert l. induction st as [|[l'|] st IH]; intros l; simpl; [done| |done].
  by rewrite list_merge_fmap, IH.
Qed.

Lemma merge_stack_fmap st :
  merge_stack R' (stack_fmap f st) = f <$> merge_stack R st.
Proof.
  unfold stack_fmap.
  induction st as [|[l'|] st IH]; simpl; [done| |done].
  change (list_fmap _ _ ?g st) with (g <$> st).
  by rewrite IH, list_merge_fmap.
Qed.

Lemma merge_sort_aux_fmap st (l : list A) :
  merge_sort_aux R' (stack_fmap f st) (f <$> l) = f <$> merge_sort_aux R st l.
Proof.
  revert st. induction l as [|x l IH]; intros st; simpl.
  - apply merge_stack_fmap.
  - rewrite <-IH. f_equal. apply (merge_list_to_stack_fmap st [x]).
Qed.

Lemma merge_sort_fmap (l : list A) : merge_sort R' (f <$> l) = f <$> merge_sort R l.
Proof. apply (merge_sort_aux_fmap []). Qed.

End merge_sort_fmap.

Lemma path_lt_child (path : Path) (a b : str) :
  path_lt (path ++ [a]) (path ++ [b]) ↔ str_lt a b.
Proof.
  unfold path_lt, str_lt. induction path as [|x path IH]; simpl.
  - unfold lexico at 1; simpl. unfold lexico at 1, prod_lexico; simpl.
    split; [intros [?|[_ []]]; done|by left].
  - unfold lexico at 1; simpl. unfold lexico at 1, prod_lexico; simpl.
    rewrite <-IH. split; [|by right].
    intros [Hx|[_ ?]]; [|done].
    by apply (irreflexivity (lexico : relation (str))) in Hx.
Qed.

Lemma sorted_children (path : Path) (es : list (str * node)) :
  sorted ((λ e, path ++ [e.1]) <$> es) = (λ e, path ++ [e.1]) <$> by_name es.
Proof.
  unfold sorted, by_name. apply merge_sort_fmap.
  intros e1 e2. by rewrite path_lt_child.
Qed.

(** ** The children of a listed directory *)

Lemma lookup_entry_elem e es :
  NoDup es.*1 → e ∈ es → lookup_entry e.1 es = Some e.2.
Proof.
  induction es as [|[n nd] es IH]; simpl; [by intros _ ?%elem_of_nil|].
  intros [Hn Hes]%NoDup_cons [->|He]%elem_of_cons.
  - by rewrite decide_True.
  - rewrite decide_False; [by apply IH|].
    intros ->. apply Hn. by apply list_elem_of_fmap_2.
Qed.

Lemma resolve_child root path loc sz es e :
  resolve root path = Some (loc, Dir sz es) →
  entries_ok es → e ∈ es →
  resolve root (path ++ [e.1]) = Some (loc ++ [e.1], e.2).
Proof.
  unfold resolve. intros Hres [Hnames Hdup] He. rewrite walk_app.
  destruct (walk [] root path) as [[up nd]|]; [|done].
  simpl in Hres. injection Hres as <- ->. simpl.
  assert (name_ok e.1) as (_ & _ & Hd & Hdd).
  { rewrite Forall_forall in Hnames. apply Hnames. by apply list_elem_of_fmap_2. }
  rewrite !decide_False by done.
  rewrite lookup_entry_elem by done. simpl.
  unfold location. simpl. by rewrite reverse_cons.
Qed.

Lemma name_child (path : Path) n : name (path ++ [n]) = n.
Proof. unfold name. by rewrite last_snoc. Qed.

Lemma child_item_entry {F} (w : @world F) path loc sz es e tr :
  resolve (fs_root w) path = Some (loc, Dir sz es) →
  entries_ok es → e ∈ es →
  child_item w (path ++ [e.1]) tr = (Return (entry_item e), tr).
Proof.
  intros Hres Hok He.
  pose proof (resolve_child _ _ _ _ _ _ Hres Hok He) as Hc.
  unfold child_item, is_dir, stat_size, entry_item. rewrite Hc, name_child.
  destruct e as [n [fsz|dsz des]]; simpl; [|done].
  unfold mbind, M_bind, or_raise, mret, M_ret; simpl.
  by destruct (0 <? fsz).
Qed.

Lemma for_each_children {F} (w : @world F) path loc sz es (l : list (str * node)) tr :
  resolve (fs_root w) path = Some (loc, Dir sz es) →
  entries_ok es → l ⊆ es →
  for_each (child_item w) ((λ e, path ++ [e.1]) <$> l) tr =
  (Return (entry_item <$> l), tr).
Proof.
  intros Hres Hok. induction l as [|e l IH]; intros Hl; [done|].
  rewrite !fmap_cons. cbn [for_each]. unfold mbind, M_bind.
  rewrite (child_item_entry w path loc sz es) by (done || set_solver).
  by rewrite IH by set_solver.
Qed.

Lemma by_name_perm es : by_name es ≡ₚ es.
Proof. apply merge_sort_Permutation. Qed.

(** What [send_directory_listing] collects for a directory that resolves. *)
Lemma listing_items_run {F} (w : @world F) path loc sz es tr :
  resolve (fs_root w) path = Some (loc, Dir sz es) →
  entries_ok es →
  listing_items w path tr =
  (Return ((if decide (path ≠ base_path w) then [parent_item] else [])
           ++ (entry_item <$> by_name es)), tr).
Proof.
  intros Hres Hok. unfold listing_items, iterdir. rewrite Hres.
  unfold mbind, M_bind; simpl. rewrite sorted_children.
  rewrite (for_each_children w path loc sz es) by (done || by rewrite by_name_perm).
  done.
Qed.

(** ** The order of the children *)

Lemma str_lt_trichotomy s1 s2 : str_lt s1 s2 ∨ s1 = s2 ∨ str_lt s2 s1.
Proof. apply (trichotomy (lexico : relation (str))). Qed.

Lemma str_lt_asym s1 s2 : str_lt s1 s2 → ¬ str_lt s2 s1.
Proof.
  unfold str_lt. intros H1 H2.
  apply (irreflexivity (lexico : relation (str)) s1). by etrans.
Qed.

Lemma str_lt_trans s1 s2 s3 : str_lt s1 s2 → str_lt s2 s3 → str_lt s1 s3.
Proof. unfold str_lt. intros. by etrans. Qed.

Local Instance name_ge_total :
  Total (λ e1 e2 : str * node, ¬ str_lt e2.1 e1.1).
Proof.
  intros e1 e2.
  destruct (str_lt_trichotomy e1.1 e2.1) as [H|[H|H]].
  - left. by apply str_lt_asym.
  - left. rewrite H. intros H'. by apply (str_lt_asym _ _ H').
  - right. by apply str_lt_asym.
Qed.

Local Instance name_ge_trans :
  Transitive (λ e1 e2 : str * node, ¬ str_lt e2.1 e1.1).
Proof.
  intros e1 e2 e3 H12 H23 H31.
  destruct (str_lt_trichotomy e1.1 e2.1) as [H|[H|H]]; [|congruence|done].
  apply H23. by eapply str_lt_trans.
Qed.

Lemma by_name_sorted es :
  NoDup es.*1 → StronglySorted str_lt (by_name es).*1.
Proof.
  intros Hdup.
  assert (NoDup (by_name es).*1) as Hdup' by (by rewrite by_name_perm).
  pose proof (StronglySorted_merge_sort
                (λ e1 e2 : str * node, ¬ str_lt e2.1 e1.1) es) as Hs.
  fold (by_name es) in Hs. revert Hs Hdup'.
  generalize (by_name es). intros l. induction 1 as [|e l Hl IH Hall]; simpl.
  - constructor.
  - intros [Hn Hd]%NoDup_cons. constructor; [by apply IH|].
    apply Forall_fmap, Forall_forall. intros e' He'.
    rewrite Forall_forall in Hall. specialize (Hall e' He').
    destruct (str_lt_trichotomy e.1 e'.1) as [H|[H|H]]; [done| |done].
    destruct Hn. rewrite H. by apply list_elem_of_fmap_2.
Qed.

Lemma entry_item_dir e sz es :
  e.2 = Dir sz es → entry_item e = (e.1 ++ lit "/", lit "Directory", lit "-").
Proof. unfold entry_item. by intros ->. Qed.

Lemma entry_item_file e sz :
  e.2 = File sz →
  entry_item e = (e.1, lit "File", if 0 <? sz then format_kib sz else lit "0 KB").
Proof. unfold entry_item. by intros ->. Qed.

Lemma entry_item_not_parent e : name_ok e.1 → (entry_item e).1.1 ≠ lit "../".
Proof.
  intros (_ & Hslash & _ & Hdd). unfold entry_item.
  destruct e as [n [fsz|dsz des]]; simpl in *.
  - intros ->. apply Hslash. vm_compute. set_solver.
  - change (lit "../") with (lit ".." ++ lit "/").
    intros [? _]%app_inj_2; done.
Qed.

(** ** Size labels *)

Lemma round_half_even_nearest num den :
  0 < den →
  den * round_half_even num den ≤ num + den `div` 2 ∧
  2 * num ≤ 2 * den * round_half_even num den + den.
Proof.
  intros Hden. unfold round_half_even.
  pose proof (N.div_mod num den) as Hdm.
  pose proof (N.mod_lt num den) as Hlt.
  pose proof (N.div_mod den 2) as Hd2.
  pose proof (N.mod_lt den 2) as Hl2.
  generalize dependent (num `div` den). generalize dependent (num `mod` den).
  generalize dependent (den `div` 2). generalize dependent (den `mod` 2).
  intros m2 Hl2 d2 Hd2 r Hlt q Hdm.
  assert (num = den * q + r) as -> by lia.
  assert (den * (q + 1) = den * q + den) as Hq by lia.
  generalize dependent (den * q). intros dq Hdm Hq.
  destruct (N.compare_spec (2 * r) den) as [He|He|He];
    [destruct (N.even q)| |]; rewrite ?Hq; lia.
Qed.

Lemma round_half_even_1 n : round_half_even n 1 = n.
Proof.
  unfold round_half_even. rewrite N.div_1_r, N.mod_1_r. reflexivity.
Qed.

Lemma round_to_double_exact n : n < 2 ^ 53 → round_to_double n = n.
Proof.
  intros Hn. unfold round_to_double.
  assert (N.log2 n - 52 = 0) as ->.
  { destruct (decide (n = 0)) as [->|Hne]; [reflexivity|].
    assert (N.log2 n < 53) by (apply N.log2_lt_pow2; lia). lia. }
  rewrite round_half_even_1. change (2 ^ 0) with 1. lia.
Qed.

Lemma round_to_double_float n : float_of_size n (round_to_double n).
Proof.
  unfold float_of_size.
  destruct (decide (n < 2 ^ 53)) as [Hs|Hl].
  { rewrite round_to_double_exact by done. lia. }
  unfold round_to_double.
  assert (53 ≤ N.log2 n) as Hlog by (apply N.log2_le_pow2; lia).
  destruct (N.log2_spec n) as [Hlo _]; [lia|].
  set (e := N.log2 n - 52) in *.
  assert (N.log2 n = 53 + (e - 1)) as Hsplit by lia.
  rewrite Hsplit, N.pow_add_r in Hlo.
  assert (2 ^ e = 2 * 2 ^ (e - 1)) as Hpow.
  { rewrite <-N.pow_succ_r'. f_equal. lia. }
  destruct (round_half_even_nearest n (2 ^ e)) as [H1 H2].
  { apply N.neq_0_lt_0, N.pow_nonzero. lia. }
  rewrite Hpow in H1, H2 |- *.
  replace ((2 * 2 ^ (e - 1)) `div` 2) with (2 ^ (e - 1)) in H1
    by (rewrite (N.mul_comm 2), N.div_mul; lia).
  generalize dependent (round_half_even n (2 * 2 ^ (e - 1))). intros m H1 H2.
  generalize dependent (2 ^ (e - 1)). intros h Hlo _ H1 H2.
  change (2 ^ 53) with 9007199254740992 in *. nia.
Qed.

Lemma float_of_size_exact n d : n < 2 ^ 53 → float_of_size n d → d = n.
Proof. unfold float_of_size. change (2 ^ 53) with 9007199254740992. lia. Qed.

Lemma tenths_nearest sz : nearest_tenth (round_to_double sz) (tenths_of_kib sz).
Proof.
  unfold nearest_tenth, tenths_of_kib.
  destruct (round_half_even_nearest (10 * round_to_double sz) 1024) as [H1 H2]; [lia|].
  change (1024 `div` 2) with 512 in H1. lia.
Qed.

Lemma str_of_digit d : d < 10 → length (str_of_int d) = 1%nat.
Proof.
  intros Hd.
  assert (d = 0 ∨ d = 1 ∨ d = 2 ∨ d = 3 ∨ d = 4 ∨ d = 5 ∨ d = 6 ∨ d = 7 ∨
          d = 8 ∨ d = 9) as H by lia.
  repeat destruct H as [->|H]; try subst d; reflexivity.
Qed.

Lemma format_kib_label sz : kib_label sz (format_kib sz).
Proof.
  exists (round_to_double sz), (tenths_of_kib sz).
  split; [apply round_to_double_float|]. split; [apply tenths_nearest|]. split.
  - apply str_of_digit, N.mod_lt. lia.
  - unfold format_kib, format_1f. by rewrite <-!app_assoc.
Qed.

Lemma entry_item_shown_size e : shown_size e (entry_item e).
Proof.
  unfold shown_size, entry_item. destruct e as [n [sz|dsz des]]; simpl; [|done].
  case_decide as Hz.
  - by subst sz.
  - destruct (N.ltb_spec 0 sz); [apply format_kib_label|lia].
Qed.

Lemma entry_item_shown_name e : shown_name e (entry_item e).
Proof. unfold shown_name, entry_item. by destruct e as [n [sz|dsz des]]. Qed.

(** ** C4 *)




(** ** C6 *)

(** C6: the children of a rendered directory are listed once each, in
    ascending order of their names compared code point by code point; a
    directory child is shown under its name followed by ["/"] with the size
    label ["-"], a file child under its name. *)
Theorem listing_sorted_by_name {F} (w : @world F) path loc sz es :
  resolve (fs_root w) path = Some (loc, Dir sz es) →
  entries_ok es →
  ∃ parent children items,
    run (listing_items w path) = (Return (parent ++ items), []) ∧
    parent = (if decide (path ≠ base_path w) then [parent_item] else []) ∧
    children ≡ₚ es ∧
    StronglySorted str_lt children.*1 ∧
    Forall2 shown_name children items.
Proof.
  intros Hres Hok. eexists _, (by_name es), _. split.
  { unfold run. by apply (listing_items_run w path loc sz es). }
  split; [done|]. split; [apply by_name_perm|].
  split; [apply by_name_sorted, Hok|].
  apply Forall2_fmap_r, Forall_Forall2_diag, Forall_forall.
  intros e _. apply entry_item_shown_name.
Qed.

Lemma listing_sorted_by_name_witness :
  ∃ parent children items,
    run (listing_items example_world [lit "srv"; lit "www"]) =
      (Return (parent ++ items), []) ∧
    parent = (if decide ([lit "srv"; lit "www"] ≠ base_path example_world)
              then [parent_item] else []) ∧
    children ≡ₚ www ∧
    StronglySorted str_lt children.*1 ∧
    Forall2 shown_name children items.
Proof.
  apply (listing_sorted_by_name example_world [lit "srv"; lit "www"]
           [lit "srv"; lit "www"] 4096 www).
  - vm_compute. reflexivity.
  - split.
    + apply (bool_decide_unpack _). vm_compute. reflexivity.
    + apply (bool_decide_unpack _). vm_compute. reflexivity.
Defined.

(** The listing of the example directory, in full. *)
Example listing_example :
  run (listing_items example_world [lit "srv"; lit "www"]) =
  (Return [(lit "a b", lit "File", lit "0.0 KB");
           (lit "a.txt", lit "File", lit "0 KB");
           (lit "b.txt", lit "File", lit "2.0 KB");
           (lit "empty/", lit "Directory", lit "-");
           (lit "index.html", lit "File", lit "0.0 KB")], []).
Proof. vm_compute. reflexivity. Qed.

(** ** C7 *)

(** C7, as amended: the listing starts with the parent link
    [("../", "Parent Directory", "-")] when the path object built from the
    request differs from [base_path], and has no entry named ["../"] when it
    is equal to it. The comparison is between unnormalised path objects: the
    two are equal exactly when the request path has no segment other than
    empty ones and [.]. So every rendered directory other than the base
    directory starts with the parent link, and the base directory does too
    unless it is requested by such a path. *)
Theorem parent_link {F} (w : @world F) (self_path : str) loc sz es :
  base_ok w →
  resolve (fs_root w) (target_path w self_path) = Some (loc, Dir sz es) →
  entries_ok es →
  ∃ items,
    run (listing_items w (target_path w self_path)) = (Return items, []) ∧
    (target_path w self_path ≠ base_path w →
       head items = Some (lit "../", lit "Parent Directory", lit "-")) ∧
    (target_path w self_path = base_path w →
       Forall (λ it, it.1.1 ≠ lit "../") items) ∧
    (target_path w self_path = base_path w ↔
       filter (λ seg, seg ≠ [] ∧ seg ≠ lit ".") (split 47 self_path) = []) ∧
    (loc ≠ base_path w →
       head items = Some (lit "../", lit "Parent Directory", lit "-")).
Proof.
  intros Hbase Hres Hok. eexists. split.
  { unfold run. by apply (listing_items_run w _ loc sz es). }
  split; [|split; [|split]].
  - intros Hne. by rewrite decide_True.
  - intros Heq. rewrite decide_False by (by intros []). simpl.
    apply Forall_fmap, Forall_forall. intros e He. apply entry_item_not_parent.
    destruct Hok as [Hnames _]. rewrite Forall_forall in Hnames.
    apply Hnames, list_elem_of_fmap_2. by rewrite <-(by_name_perm es).
  - rewrite target_path_parse. fold (parse_parts self_path). split.
    + intros Heq. apply (app_inv_head (base_path w)). by rewrite app_nil_r.
    + intros ->. apply app_nil_r.
  - intros Hloc. rewrite decide_True; [done|]. intros Heq. apply Hloc.
    rewrite Heq in Hres. destruct Hbase as (bsz & bes & Hb). congruence.
Qed.

Lemma parent_link_witness :
  ∃ items,
    run (listing_items example_world (target_path example_world (lit "/empty/"))) =
      (Return items, []) ∧
    (target_path example_world (lit "/empty/") ≠ base_path example_world →
       head items = Some (lit "../", lit "Parent Directory", lit "-")) ∧
    (target_path example_world (lit "/empty/") = base_path example_world →
       Forall (λ it, it.1.1 ≠ lit "../") items) ∧
    (target_path example_world (lit "/empty/") = base_path example_world ↔
       filter (λ seg, seg ≠ [] ∧ seg ≠ lit ".") (split 47 (lit "/empty/")) = []) ∧
    ([lit "srv"; lit "www"; lit "empty"] ≠ base_path example_world →
       head items = Some (lit "../", lit "Parent Directory", lit "-")).
Proof.
  apply (parent_link example_world (lit "/empty/") _ 4096 []).
  - eexists _, _. vm_compute. reflexivity.
  - vm_compute. reflexivity.
  - split; constructor.
Defined.

(** C7 fails as stated: a request for [/empty/..] renders the base
    directory itself, and the listing starts with the parent link. *)
Lemma parent_link_on_base :
  fst <$> resolve (fs_root example_world) (target_path example_world (lit "/empty/..")) =
    Some (base_path example_world) ∧
  ∃ items,
    run (listing_items example_world (target_path example_world (lit "/empty/.."))) =
      (Return items, []) ∧
    head items = Some (lit "../", lit "Parent Directory", lit "-").
Proof. split; [by vm_compute|]. eexists. split; by vm_compute. Qed.

(** ** Literals and numbers as strings *)

Lemma lit_inj s1 s2 : lit s1 = lit s2 → s1 = s2.
Proof.
  unfold lit. intros H.
  rewrite <-(string_of_list_ascii_of_string s1), <-(string_of_list_ascii_of_string s2).
  f_equal. revert H. generalize (list_ascii_of_string s1) (list_ascii_of_string s2).
  intros l1. induction l1 as [|a l1 IH]; intros [|b l2] [=]; [done|].
  f_equal; [|by apply IH].
  by rewrite <-(ascii_N_embedding a), <-(ascii_N_embedding b), H0.
Qed.

Lemma str_of_int_inj n1 n2 : str_of_int n1 = str_of_int n2 → n1 = n2.
Proof.
  unfold str_of_int. intros H%lit_inj.
  assert (∀ n, N.to_uint n ≠ Decimal.Nil) as Hnn.
  { intros n Hn. pose proof (DecimalN.Unsigned.of_to n) as Hof.
    rewrite Hn in Hof. simpl in Hof. subst n. done. }
  apply DecimalN.Unsigned.to_uint_inj.
  pose proof (NilZero.usu _ (Hnn n1)) as H1.
  pose proof (NilZero.usu _ (Hnn n2)) as H2.
  rewrite H in H1. congruence.
Qed.

(** ** UTF-8 *)

Lemma utf8_char_length c b :
  utf8_char c = Some b →
  (1 ≤ length b)%nat ∧ (length b = 1%nat ↔ c < 128).
Proof.
  unfold utf8_char.
  destruct (N.ltb_spec c 0x80); [intros [= <-]; simpl; split; [lia|done]|].
  repeat case_match; intros [= <-]; simpl; (split; [lia|]); split; (lia || done).
Qed.

Lemma utf8_length s d :
  utf8 s = Some d →
  (length s ≤ length d)%nat ∧
  (length d = length s ↔ Forall (λ c, c < 128) s).
Proof.
  revert d. induction s as [|c s IH]; intros d; simpl.
  - intros [= <-]. split; [done|]. split; [constructor|done].
  - destruct (utf8_char c) as [b|] eqn:Hc; [|done].
    destruct (utf8 s) as [bs|]; [|done]. intros [= <-].
    destruct (utf8_char_length _ _ Hc) as [Hb1 Hb2].
    destruct (IH bs eq_refl) as [Hs1 Hs2].
    rewrite length_app, Forall_cons. split; [lia|].
    rewrite <-Hb2, <-Hs2. lia.
Qed.

Lemma utf8_ascii s : Forall (λ c, c < 128) s → utf8 s = Some s.
Proof.
  induction 1 as [|c s Hc _ IH]; simpl; [done|].
  rewrite IH. unfold utf8_char.
  destruct (N.ltb_spec c 128); [done|lia].
Qed.

Lemma len_eq (s d : str) : len s = len d ↔ length s = length d.
Proof. unfold len. lia. Qed.

(** ** The listing document *)

Lemma relative_to_app base parts : relative_to (base ++ parts) base = Some parts.
Proof.
  induction base as [|b base IH]; simpl; [by destruct parts|].
  by rewrite decide_True.
Qed.

Lemma listing_html_run {F} (w : @world F) self_path loc sz es tr :
  resolve (fs_root w) (target_path w self_path) = Some (loc, Dir sz es) →
  entries_ok es →
  ∃ items title,
    listing_items w (target_path w self_path) tr = (Return items, tr) ∧
    listing_html w (target_path w self_path) tr =
      (Return (render_html title (time_ctime w) (join [10] (file_item <$> items))), tr).
Proof.
  intros Hres Hok. eexists _, _. split.
  { by apply (listing_items_run w (target_path w self_path) loc sz es). }
  unfold listing_html. rewrite target_path_eq at 1. rewrite relative_to_app.
  unfold mbind, M_bind; simpl.
  by rewrite (listing_items_run w _ loc sz es).
Qed.

Lemma join_infix sep x l : x ∈ l → infix x (join sep l).
Proof.
  induction l as [|y l IH]; [by intros ?%elem_of_nil|].
  intros [->|Hx]%elem_of_cons.
  - destruct l as [|z l]; simpl.
    + exists [], []. by rewrite app_nil_r.
    + by exists [], (sep ++ join sep (z :: l)).
  - destruct (IH Hx) as (pre & post & Hj).
    destruct l as [|z l]; [by apply elem_of_nil in Hx|].
    change (join sep (y :: z :: l)) with (y ++ sep ++ join sep (z :: l)).
    rewrite Hj. exists (y ++ sep ++ pre), post. by rewrite <-!app_assoc.
Qed.

Lemma infix_trans x y z : infix x y → infix y z → infix x z.
Proof.
  intros (p1 & q1 & ->) (p2 & q2 & ->).
  exists (p2 ++ p1), (q1 ++ q2). by rewrite <-!app_assoc.
Qed.

Lemma render_html_infix title ctime file_items :
  infix file_items (render_html title ctime file_items).
Proof.
  unfold render_html. eexists _, _.
  repeat first [ reflexivity | rewrite app_assoc ].
Qed.

Lemma file_item_hyperlink it : infix (hyperlink it) (file_item it).
Proof.
  unfold hyperlink, file_item.
  exists (lit "<li class=" ++ dq ++ lit "file-item" ++ dq ++ lit ">"), (lit "</li>").
  by rewrite <-!app_assoc.
Qed.

(** ** Requests for a directory *)

Section Requests.
Context {F : Type} (float_repr : F → str).

Lemma do_GET_file_or_dir (w : @world F) self_path :
  self_path ≠ lit "/tcpstates" →
  do_GET float_repr w self_path =
  try_except (handle_file_or_dir w self_path)
             (λ e, send_error 500 (MsgExc (lit "Server error: ") e)).
Proof. intros Hne. unfold do_GET. by rewrite decide_False. Qed.

Lemma do_GET_missing (w : @world F) self_path :
  self_path ≠ lit "/tcpstates" →
  resolve (fs_root w) (target_path w self_path) = None →
  run (do_GET float_repr w self_path) =
  (Return (), [SendError 404 (Msg (lit "Not Found"))]).
Proof.
  intros Hne Hres. rewrite do_GET_file_or_dir by done.
  unfold run, try_except, handle_file_or_dir, exists_. rewrite Hres.
  rewrite bool_decide_false by (by intros [? [=]]). done.
Qed.

Lemma do_GET_directory (w : @world F) self_path loc sz es html :
  self_path ≠ lit "/tcpstates" →
  resolve (fs_root w) (target_path w self_path) = Some (loc, Dir sz es) →
  run (listing_html w (target_path w self_path)) = (Return html, []) →
  run (do_GET float_repr w self_path) =
  match utf8 html with
  | Some data => (Return (), listing_events html data)
  | None =>
      (Return (),
       [SendResponse 200;
        SendHeader (lit "Content-Type") (lit "text/html");
        SendHeader (lit "Content-Length") (str_of_int (len html));
        EndHeaders;
        SendError 500 (MsgExc (lit "Directory listing failed: ") UnicodeEncodeError)])
  end.
Proof.
  intros Hne Hres Hhtml. rewrite do_GET_file_or_dir by done.
  unfold run in *. unfold try_except at 1, handle_file_or_dir, exists_, is_dir.
  rewrite Hres. rewrite bool_decide_true by eauto. simpl.
  unfold send_directory_listing, try_except, mbind, M_bind. rewrite Hhtml. simpl.
  by destruct (utf8 html).
Qed.

End Requests.

(** ** C8 *)

(** C8: for every entry of a rendered listing the document contains the
    list item generated for it, and in it the hyperlink whose [href]
    attribute and link text are the display name, character for character. *)
Theorem listing_hyperlinks {F} (w : @world F) self_path loc sz es :
  resolve (fs_root w) (target_path w self_path) = Some (loc, Dir sz es) →
  entries_ok es →
  ∃ items html,
    run (listing_items w (target_path w self_path)) = (Return items, []) ∧
    run (listing_html w (target_path w self_path)) = (Return html, []) ∧
    Forall (λ it, infix (file_item it) html ∧ infix (hyperlink it) (file_item it)) items.
Proof.
  intros Hres Hok.
  destruct (listing_html_run w self_path loc sz es [] Hres Hok)
    as (items & title & Hitems & Hhtml).
  exists items, (render_html title (time_ctime w) (join [10] (file_item <$> items))).
  split; [done|]. split; [done|].
  apply Forall_forall. intros it Hit. split; [|apply file_item_hyperlink].
  eapply infix_trans; [|apply render_html_infix].
  by apply join_infix, list_elem_of_fmap_2.
Qed.

Lemma listing_hyperlinks_witness :
  ∃ items html,
    run (listing_items example_world (target_path example_world (lit "/"))) =
      (Return items, []) ∧
    run (listing_html example_world (target_path example_world (lit "/"))) =
      (Return html, []) ∧
    Forall (λ it, infix (file_item it) html ∧ infix (hyperlink it) (file_item it)) items.
Proof.
  apply (listing_hyperlinks example_world (lit "/") [lit "srv"; lit "www"] 4096 www).
  - vm_compute. reflexivity.
  - split.
    + apply (bool_decide_unpack _). vm_compute. reflexivity.
    + apply (bool_decide_unpack _). vm_compute. reflexivity.
Defined.

(** ** C10 *)

(** C10: the [Content-Length] header of a directory listing is the number of
    characters of the document, the body is its UTF-8 encoding, and the two
    lengths agree exactly when every character of the document is below
    U+0080. *)
Theorem content_length_counts_characters {F} (float_repr : F → str)
    (w : @world F) self_path loc sz es :
  self_path ≠ lit "/tcpstates" →
  resolve (fs_root w) (target_path w self_path) = Some (loc, Dir sz es) →
  entries_ok es →
  ∃ html,
    run (listing_html w (target_path w self_path)) = (Return html, []) ∧
    ∀ data, utf8 html = Some data →
      run (do_GET float_repr w self_path) = (Return (), listing_events html data) ∧
      (length html ≤ length data)%nat ∧
      (str_of_int (len html) = str_of_int (len data) ↔ Forall (λ c, c < 128) html).
Proof.
  intros Hne Hres Hok.
  destruct (listing_html_run w self_path loc sz es [] Hres Hok)
    as (items & title & _ & Hhtml).
  eexists. split; [exact Hhtml|]. intros data Hdata.
  rewrite (do_GET_directory float_repr w self_path loc sz es _ Hne Hres Hhtml), Hdata.
  split; [done|].
  destruct (utf8_length _ _ Hdata) as [Hle Hiff]. split; [done|].
  rewrite <-Hiff, <-len_eq. split; [by intros ?%str_of_int_inj|by intros ->].
Qed.

Lemma content_length_counts_characters_witness :
  ∃ html,
    run (listing_html example_world (target_path example_world (lit "/"))) =
      (Return html, []) ∧
    ∀ data, utf8 html = Some data →
      run (do_GET example_repr example_world (lit "/")) =
        (Return (), listing_events html data) ∧
      (length html ≤ length data)%nat ∧
      (str_of_int (len html) = str_of_int (len data) ↔ Forall (λ c, c < 128) html).
Proof.
  apply (content_length_counts_characters example_repr example_world (lit "/")
           [lit "srv"; lit "www"] 4096 www).
  - vm_compute. discriminate.
  - vm_compute. reflexivity.
  - split.
    + apply (bool_decide_unpack _). vm_compute. reflexivity.
    + apply (bool_decide_unpack _). vm_compute. reflexivity.
Defined.

(** A name with a character above U+007F, which is in the document twice:
    the header counts it twice, the body has it as two bytes each time. A name
    that cannot be encoded ends the response after the headers. *)
Example content_length_non_ascii :
  ∃ html data,
    run (listing_html accent_world (target_path accent_world (lit "/"))) =
      (Return html, []) ∧
    run (do_GET example_repr accent_world (lit "/")) =
      (Return (), listing_events html data) ∧
    length data = (length html + 2)%nat ∧
    ∃ html',
      run (do_GET example_repr surrogate_world (lit "/")) =
      (Return (),
       [SendResponse 200;
        SendHeader (lit "Content-Type") (lit "text/html");
        SendHeader (lit "Content-Length") (str_of_int (len html'));
        EndHeaders;
        SendError 500 (MsgExc (lit "Directory listing failed: ") UnicodeEncodeError)]).
Proof.
  eexists _, _. split; [vm_compute; reflexivity|].
  split; [vm_compute; reflexivity|]. split; [vm_compute; reflexivity|].
  exists (match run (listing_html surrogate_world (target_path surrogate_world (lit "/")))
          with (Return h, _) => h | _ => [] end).
  vm_compute. reflexivity.
Qed.

(** ** Request paths are taken literally *)

Lemma join_split s : join [47] (split 47 s) = s.
Proof.
  induction s as [|c s IH]; [done|]. cbn [split].
  pose proof (split_nonempty 47 s) as Hne.
  destruct (split 47 s) as [|p ps] eqn:E; [done|].
  case_decide as Hc.
  - subst c. change (join [47] ([] :: p :: ps)) with ([] ++ [47] ++ join [47] (p :: ps)).
    by rewrite IH.
  - destruct ps as [|p' ps]; simpl in *; by rewrite <-IH.
Qed.

Lemma split_segment s : 47 ∉ s → split 47 s = [s].
Proof.
  induction s as [|c s IH]; [done|].
  intros Hs. cbn [split]. rewrite decide_False by set_solver.
  rewrite IH by set_solver. done.
Qed.

Lemma parse_parts_segment s : name_ok s → parse_parts s = [s].
Proof.
  intros (Hne & Hslash & Hd & _). unfold parse_parts.
  rewrite split_segment by done.
  by rewrite filter_cons_True by done.
Qed.

Lemma resolve_absent root path loc sz es s :
  resolve root path = Some (loc, Dir sz es) →
  name_ok s → lookup_entry s es = None →
  resolve root (path ++ [s]) = None.
Proof.
  unfold resolve. intros Hres (_ & _ & Hd & Hdd) Hs. rewrite walk_app.
  destruct (walk [] root path) as [[up nd]|]; [|done].
  simpl in Hres. injection Hres as <- ->. simpl.
  rewrite !decide_False by done. by rewrite Hs.
Qed.

(** The same file under its own name is handed to the file transfer, and a
    query string is looked up as part of the name. *)
Example literal_name_served :
  run (do_GET example_repr example_world (lit "/a b")) = (Return (), [SuperGET]) ∧
  run (do_GET example_repr example_world (lit "/b.txt?download=1")) =
    (Return (), [SendError 404 (Msg (lit "Not Found"))]).
Proof. split; vm_compute; reflexivity. Qed.

(** ** C5 *)

Lemma is_ascii_app s1 s2 : is_ascii s1 → is_ascii s2 → is_ascii (s1 ++ s2).
Proof. apply Forall_app_2. Qed.

Lemma is_ascii_lit_check s :
  forallb (λ c, c <? 128) (lit s) = true → is_ascii (lit s).
Proof.
  unfold is_ascii. rewrite forallb_forall, Forall_forall.
  intros H c Hc. apply N.ltb_lt, H. by apply list_elem_of_In.
Qed.

Lemma hex_digit_ascii n : hex_digit (N.land n 0xF) < 128.
Proof.
  change 0xF with (N.ones 4). rewrite N.land_ones.
  pose proof (N.mod_lt n (2 ^ 4)) as H. unfold hex_digit.
  case_match; lia.
Qed.

Lemma hex4_ascii n : is_ascii (hex4 n).
Proof. unfold hex4. repeat constructor; apply hex_digit_ascii. Qed.

Lemma escape_char_ascii c : is_ascii (escape_char c).
Proof.
  unfold escape_char.
  repeat case_decide; try (by apply is_ascii_lit_check).
  - apply is_ascii_app; [by apply is_ascii_lit_check|repeat constructor].
  - destruct ((32 <=? c) && (c <=? 126)) eqn:E.
    + apply andb_true_iff in E as [_ ?%N.leb_le]. repeat constructor. lia.
    + case_match; repeat apply is_ascii_app;
        (apply hex4_ascii || by apply is_ascii_lit_check).
Qed.

Lemma encode_basestring_ascii_ascii s : is_ascii (encode_basestring_ascii s).
Proof.
  unfold encode_basestring_ascii.
  apply is_ascii_app; [repeat constructor|].
  apply is_ascii_app; [|repeat constructor].
  induction s as [|c s IH]; [constructor|].
  apply is_ascii_app; [apply escape_char_ascii|apply IH].
Qed.

Section Status.
Context {F : Type} (float_repr : F → str).
Hypothesis float_repr_ascii : ∀ f, is_ascii (float_repr f).

Lemma dumps_status (w : @world F) :
  dumps float_repr (status_dict w) =
  status_text (float_repr (time_time w)) (encode_basestring_ascii (gethostname w)).
Proof.
  unfold dumps, status_dict, status_text.
  rewrite !fmap_cons, fmap_nil. cbn [fst snd dumps_value].
  generalize (float_repr (time_time w)) (encode_basestring_ascii (gethostname w)).
  intros ts h. cbn [join]. change (encode_basestring_ascii (lit ?s)) with (dq ++ lit s ++ dq).
  rewrite <-!app_assoc. reflexivity.
Qed.

Lemma status_text_ascii timestamp host :
  is_ascii timestamp → is_ascii host → is_ascii (status_text timestamp host).
Proof.
  intros Ht Hh. unfold status_text.
  repeat first
    [ assumption
    | apply is_ascii_app
    | by apply is_ascii_lit_check
    | by repeat constructor ].
Qed.

(** C5: a request for [/tcpstates] is answered with status 200, the content
    type [application/json], a [Content-Length] equal to the number of bytes
    of the body, and as body the JSON object with the four keys [status],
    [timestamp], [host] and [message], in which [status] is ["ok"],
    [timestamp] the current time as a float, [host] the host name and
    [message] ["VM-compatible dark mode server"]. *)
Theorem status_endpoint (w : @world F) :
  ∃ body,
    run (do_GET float_repr w (lit "/tcpstates")) =
      (Return (),
       [SendResponse 200;
        SendHeader (lit "Content-Type") (lit "application/json");
        SendHeader (lit "Content-Length") (str_of_int (N.of_nat (length body)));
        EndHeaders;
        Write body]) ∧
    (status_dict w).*1 = [lit "status"; lit "timestamp"; lit "host"; lit "message"] ∧
    body = status_text (float_repr (time_time w))
                       (encode_basestring_ascii (gethostname w)).
Proof.
  eexists. split; [|split; [done|reflexivity]].
  unfold run, do_GET. rewrite decide_True by done.
  unfold try_except, handle_api, mbind, M_bind.
  rewrite dumps_status, utf8_ascii.
  - reflexivity.
  - apply status_text_ascii; [apply float_repr_ascii|apply encode_basestring_ascii_ascii].
Qed.

End Status.

Lemma status_endpoint_witness :
  ∃ body,
    run (do_GET example_repr example_world (lit "/tcpstates")) =
      (Return (),
       [SendResponse 200;
        SendHeader (lit "Content-Type") (lit "application/json");
        SendHeader (lit "Content-Length") (str_of_int (N.of_nat (length body)));
        EndHeaders;
        Write body]) ∧
    (status_dict example_world).*1 =
      [lit "status"; lit "timestamp"; lit "host"; lit "message"] ∧
    body = status_text (example_repr (time_time example_world))
                       (encode_basestring_ascii (gethostname example_world)).
Proof.
  apply (status_endpoint example_repr).
  intros []. apply is_ascii_lit_check. reflexivity.
Defined.

(** The status document of the example is 104 bytes long. *)
Example status_example :
  ∃ body,
    run (do_GET example_repr example_world (lit "/tcpstates")) =
      (Return (),
       [SendResponse 200;
        SendHeader (lit "Content-Type") (lit "application/json");
        SendHeader (lit "Content-Length") (lit "104");
        EndHeaders;
        Write body]) ∧
    body = status_text (lit "1793695080.25") (dq ++ lit "vm1" ++ dq).
Proof. eexists. split; vm_compute; reflexivity. Qed.

(** ** The gate *)

Local Open Scope nat_scope.

Lemma count_insert (P : thread → bool) (l : list thread) i t t' :
  l !! i = Some t →
  length (filter (λ t, P t = true) (<[i:=t']> l)) + Nat.b2n (P t) =
  length (filter (λ t, P t = true) l) + Nat.b2n (P t').
Proof.
  revert i. induction l as [|x l IH]; intros i Hi; [done|].
  destruct i as [|i]; simpl in Hi.
  - injection Hi as ->. change (<[0:=t']> (t :: l)) with (t' :: l).
    rewrite !filter_cons.
    destruct (P t), (P t'); rewrite ?decide_True, ?decide_False by done; simpl; lia.
  - change (<[S i:=t']> (x :: l)) with (x :: <[i:=t']> l).
    rewrite !filter_cons. specialize (IH i Hi).
    case_decide; simpl; lia.
Qed.

Lemma step_thread_slots a v t v' t' :
  step_thread a v t = Some (v', t') →
  v' + Nat.b2n (holds_slot t') = v + Nat.b2n (holds_slot t).
Proof.
  unfold step_thread, holds_slot, Semaphore.acquire, Semaphore.release.
  destruct a, (at_pc t) eqn:Hpc; intros; simplify_eq/=; try lia.
  - destruct v; simplify_eq/=. lia.
  - destruct r; simpl; lia.
  - repeat case_decide; repeat case_match; simplify_eq/=; lia.
Qed.

Lemma step_thread_ok a v t v' t' :
  step_thread a v t = Some (v', t') → thread_ok t → thread_ok t'.
Proof.
  unfold step_thread, thread_ok, exited, Semaphore.acquire.
  destruct a, (at_pc t) eqn:Hpc; intros Hs [Hrel Hclose]; simplify_eq/=.
  - destruct v; simplify_eq/=. done.
  - done.
  - rewrite Hrel. by destruct r.
  - repeat case_decide; repeat case_match; simplify_eq/=; done.
  - done.
Qed.

Lemma fire_inv maximum a s s' :
  fire a s = Some s' → gate_inv maximum s → gate_inv maximum s'.
Proof.
  unfold fire, gate_inv, count. intros Hf [Hsem Hok].
  destruct (threads s !! thread_of a) as [t|] eqn:Ht; simplify_eq/=.
  destruct (step_thread a (semaphore s) t) as [[v' t']|] eqn:Hst; simplify_eq/=.
  split.
  - pose proof (count_insert holds_slot _ _ _ t' Ht).
    pose proof (step_thread_slots _ _ _ _ _ Hst). lia.
  - apply Forall_insert; [done|]. eapply step_thread_ok; [done|].
    rewrite Forall_forall in Hok. by eapply Hok, list_elem_of_lookup_2.
Qed.

Lemma init_inv maximum n : gate_inv maximum (init maximum n).
Proof.
  unfold gate_inv, init, count. simpl. split.
  - induction n as [|n IH]; simpl; [lia|].
    rewrite filter_cons_False by done. done.
  - apply Forall_replicate. by split.
Qed.

Lemma exec_inv maximum acts s s' :
  exec acts s = Some s' → gate_inv maximum s → gate_inv maximum s'.
Proof.
  revert s. induction acts as [|a acts IH]; intros s; simpl.
  - by intros [= ->].
  - destruct (fire a s) as [s1|] eqn:Hf; [|done]. simpl.
    intros He Hinv. eapply IH; [done|]. by eapply fire_inv.
Qed.

Lemma fire_enter_lookup i s :
  fire (Enter i) s =
  match threads s !! i with
  | Some t =>
      match at_pc t, semaphore s with
      | Accepted, S v =>
          Some (State v (<[i := Thread Handling (released t) (close_connection t) (log t)]>
                           (threads s)))
      | _, _ => None
      end
  | None => None
  end.
Proof.
  unfold fire. simpl. destruct (threads s !! i) as [t|]; [|done]. simpl.
  unfold step_thread. destruct (at_pc t); try done.
  by destruct (semaphore s).
Qed.

Lemma exec_enter_first j c k :
  exec (Enter <$> seq j c)
       (State c (replicate j (Thread Handling 0 false []) ++
                 replicate (c + k) (Thread Accepted 0 false []))) =
  Some (State 0 (replicate (j + c) (Thread Handling 0 false []) ++
                 replicate k (Thread Accepted 0 false []))).
Proof.
  revert j. induction c as [|c IH]; intros j.
  - simpl. by rewrite Nat.add_0_r.
  - cbn [seq fmap list_fmap exec]. rewrite fire_enter_lookup. cbn [threads semaphore].
    rewrite lookup_app_r by (by rewrite length_replicate).
    rewrite length_replicate, Nat.sub_diag. cbn [Nat.add replicate lookup list_lookup at_pc].
    cbn [mbind option_bind released close_connection log].
    rewrite insert_app_r_alt by (by rewrite length_replicate).
    rewrite length_replicate, Nat.sub_diag. cbn [insert list_insert].
    rewrite (cons_middle _ (replicate j _)), app_assoc, <-replicate_S_end.
    change (list_fmap nat action Enter (seq (S j) c)) with (Enter <$> seq (S j) c).
    rewrite IH. by rewrite Nat.add_succ_r.
Qed.

Lemma count_replicate (P : thread → bool) n t :
  length (filter (λ t, P t = true) (replicate n t)) = if P t then n else 0.
Proof.
  induction n as [|n IH]; simpl; [by destruct (P t)|].
  rewrite filter_cons. destruct (P t) eqn:E.
  - rewrite decide_True by done. simpl. by rewrite IH.
  - by rewrite decide_False by done.
Qed.

Lemma count_app (P : thread → bool) v l1 l2 :
  count P (State v (l1 ++ l2)) = count P (State v l1) + count P (State v l2).
Proof. unfold count. simpl. by rewrite filter_app, length_app. Qed.

Lemma exec_one_thread i acts s t :
  threads s !! i = Some t →
  Forall (λ a, thread_of a = i) acts →
  exec acts s =
  (λ vt, State vt.1 (<[i := vt.2]> (threads s))) <$> exec_thread acts (semaphore s) t.
Proof.
  intros Ht Hacts. revert s t Ht.
  induction Hacts as [|a acts Ha _ IH]; intros s t Ht; simpl.
  - destruct s as [v ts]. simpl in *. by rewrite list_insert_id.
  - unfold fire. rewrite Ha, Ht. simpl.
    destruct (step_thread a (semaphore s) t) as [[v' t']|]; [|done]. simpl.
    rewrite (IH _ t'); simpl.
    + destruct (exec_thread acts v' t') as [[v'' t'']|]; [|done]. simpl.
      by rewrite list_insert_insert_eq.
    + apply list_lookup_insert_eq. by eapply lookup_lt_Some.
Qed.

Lemma exec_thread_leave i r v t :
  at_pc t = Handling →
  ∃ lg, exec_thread (leave i r) v t =
        Some (S v, Thread (Completed (propagated r)) (S (released t)) true lg).
Proof.
  destruct t as [p rel cc lg]. simpl. intros ->.
  destruct r as [e|]; [destruct e|]; simpl; eexists; reflexivity.
Qed.

Lemma leave_one_thread i r : Forall (λ a, thread_of a = i) (leave i r).
Proof. unfold leave. destruct r; repeat constructor. Qed.

Lemma exec_leave i r s t :
  threads s !! i = Some t → at_pc t = Handling →
  ∃ lg, exec (leave i r) s =
        Some (State (S (semaphore s))
                    (<[i := Thread (Completed (propagated r)) (S (released t)) true lg]>
                       (threads s))).
Proof.
  intros Ht Hpc. destruct (exec_thread_leave i r (semaphore s) t Hpc) as [lg Hlg].
  exists lg. rewrite (exec_one_thread i _ s t Ht (leave_one_thread i r)).
  by rewrite Hlg.
Qed.

Lemma reachable_inv maximum n acts s :
  exec acts (init maximum n) = Some s → gate_inv maximum s.
Proof. intros He. eapply exec_inv; [done|]. apply init_inv. Qed.

Lemma fire_enter_blocked i s : semaphore s = 0 → fire (Enter i) s = None.
Proof.
  intros Hv. rewrite fire_enter_lookup, Hv.
  destruct (threads s !! i) as [t|]; [|done]. by destruct (at_pc t).
Qed.

Lemma fire_enter_free i s t :
  0 < semaphore s → threads s !! i = Some t → at_pc t = Accepted →
  is_Some (fire (Enter i) s).
Proof.
  intros Hv Ht Hpc. rewrite fire_enter_lookup, Ht, Hpc.
  destruct (semaphore s); [lia|]. eauto.
Qed.

(** ** C2 *)

(** C2: with the limit [maximum], in every reachable state at most
    [maximum] handler threads are past the gate; while [maximum] threads are
    past it no further thread can enter, and as soon as fewer are, every
    accepted thread can; of [maximum + k] accepted connections, [maximum]
    enter one after the other with no release in between, and the other [k]
    are then blocked. *)
Theorem admission_bound (maximum n k : nat) (acts : list action) (s : state) :
  exec acts (init maximum n) = Some s →
  count holds_slot s ≤ maximum ∧
  (count holds_slot s = maximum → ∀ i, fire (Enter i) s = None) ∧
  (count holds_slot s < maximum →
     ∀ i t, threads s !! i = Some t → at_pc t = Accepted →
            is_Some (fire (Enter i) s)) ∧
  ∃ s', exec (enter_first maximum) (init maximum (maximum + k)) = Some s' ∧
        count holds_slot s' = maximum ∧
        count is_accepted s' = k ∧
        ∀ i, fire (Enter i) s' = None.
Proof.
  intros He. destruct (reachable_inv _ _ _ _ He) as [Hsem _].
  split; [lia|]. split; [|split].
  - intros Hfull i. apply fire_enter_blocked. lia.
  - intros Hfree i t Ht Hpc. eapply fire_enter_free; [lia|done..].
  - eexists. split.
    + unfold enter_first, init. apply (exec_enter_first 0 maximum k).
    + simpl. rewrite !count_app. unfold count. simpl.
      rewrite !count_replicate. simpl. split; [lia|]. split; [lia|].
      intros i. by apply fire_enter_blocked.
Qed.

Lemma admission_bound_witness :
  ∃ s, exec (enter_first 2 ++ leave 0 (Some BrokenPipeError)) (init 2 5) = Some s ∧
       count holds_slot s = 1 ∧
       (count holds_slot s < 2 →
          ∀ i t, threads s !! i = Some t → at_pc t = Accepted →
                 is_Some (fire (Enter i) s)) ∧
       ∃ s', exec (enter_first 2) (init 2 (2 + 3)) = Some s' ∧
             count holds_slot s' = 2 ∧ count is_accepted s' = 3 ∧
             ∀ i, fire (Enter i) s' = None.
Proof.
  eexists. split; [vm_compute; reflexivity|]. split; [reflexivity|].
  eapply (admission_bound 2 5 3 (enter_first 2 ++ leave 0 (Some BrokenPipeError))).
  vm_compute. reflexivity.
Defined.

(** With the limit of the server, at most 100 requests are past the gate. *)
Corollary default_limit n acts s :
  exec acts (server_init n) = Some s → count holds_slot s ≤ 100.
Proof.
  intros He. destruct (reachable_inv _ _ _ _ He) as [Hsem _].
  change MAX_CONCURRENT_REQUESTS with 100 in Hsem. lia.
Qed.

(** ** C3 *)

(** C3: in every reachable state the semaphore value is between 0 and
    [maximum] and equals [maximum] less the number of threads holding a
    slot, so it is [maximum] again when none holds one; a thread has released
    once if it has left the [with] block and not at all before; and from
    inside the body every result — return, client disconnect, any other
    exception — leads to the return of [handle_one_request] with the slot
    released once and the connection marked for closing. *)
Theorem slot_released_once (maximum n : nat) (acts : list action) (s : state) :
  exec acts (init maximum n) = Some s →
  semaphore s ≤ maximum ∧
  semaphore s + count holds_slot s = maximum ∧
  (count holds_slot s = 0 → semaphore s = maximum) ∧
  Forall (λ t, released t = if exited t then 1 else 0) (threads s) ∧
  (∀ i t r, threads s !! i = Some t → at_pc t = Handling →
     ∃ s' t', exec (leave i r) s = Some s' ∧
              semaphore s' = S (semaphore s) ∧
              threads s' !! i = Some t' ∧
              at_pc t' = Completed (propagated r) ∧
              released t' = 1 ∧
              close_connection t' = true).
Proof.
  intros He. destruct (reachable_inv _ _ _ _ He) as [Hsem Hok].
  split; [lia|]. split; [done|]. split; [lia|]. split.
  - eapply Forall_impl; [exact Hok|]. by intros t [? _].
  - intros i t r Ht Hpc.
    destruct (exec_leave i r s t Ht Hpc) as [lg Hex].
    eexists _, _. split; [exact Hex|]. simpl. split; [done|].
    split; [apply list_lookup_insert_eq; by eapply lookup_lt_Some|].
    simpl. split; [done|]. split; [|done].
    rewrite Forall_forall in Hok.
    destruct (Hok t) as [Hrel _]; [by eapply list_elem_of_lookup_2|].
    rewrite Hrel. unfold exited. by rewrite Hpc.
Qed.

Lemma slot_released_once_witness :
  ∃ s, exec (enter_first 2 ++ leave 0 (Some BrokenPipeError) ++ [Enter 2])
            (init 2 5) = Some s ∧
       semaphore s = 0 ∧
       Forall (λ t, released t = if exited t then 1 else 0) (threads s) ∧
       (∀ i t r, threads s !! i = Some t → at_pc t = Handling →
          ∃ s' t', exec (leave i r) s = Some s' ∧
                   semaphore s' = S (semaphore s) ∧
                   threads s' !! i = Some t' ∧
                   at_pc t' = Completed (propagated r) ∧
                   released t' = 1 ∧
                   close_connection t' = true).
Proof.
  eexists. split; [vm_compute; reflexivity|]. split; [reflexivity|].
  eapply (slot_released_once 2 5
            (enter_first 2 ++ leave 0 (Some BrokenPipeError) ++ [Enter 2])).
  vm_compute. reflexivity.
Defined.

(** The three ways out of the body, from a full gate. *)
Example leave_example :
  semaphore <$> exec (enter_first 2 ++ leave 0 None) (init 2 3) = Some 1 ∧
  semaphore <$> exec (enter_first 2 ++ leave 0 (Some ConnectionResetError)) (init 2 3) = Some 1 ∧
  semaphore <$> exec (enter_first 2 ++ leave 0 (Some RuntimeError)) (init 2 3) = Some 1 ∧
  semaphore <$> exec (enter_first 2 ++ leave 0 None ++ leave 1 (Some SystemExit)) (init 2 3) = Some 2 ∧
  exec (enter_first 3) (init 2 3) = None.
Proof. repeat split; vm_compute; reflexivity. Qed.

(** ** Checks of the value model against known outputs *)

Example format_kib_examples :
  format_kib 10 = lit "0.0 KB" ∧ format_kib 52 = lit "0.1 KB" ∧
  format_kib 256 = lit "0.2 KB" ∧ format_kib 768 = lit "0.8 KB" ∧
  format_kib 1000 = lit "1.0 KB" ∧ format_kib 1076 = lit "1.1 KB" ∧
  format_kib 2048 = lit "2.0 KB".
Proof. repeat split; reflexivity. Qed.

(** Sizes from [2^53] on are rounded to 53 significant bits before the
    division: [f"{(2**53 + 51)/1024:.1f} KB"] is ['8796093022208.1 KB']. *)
Example format_kib_float_examples :
  format_kib (2 ^ 53) = lit "8796093022208.0 KB" ∧
  format_kib (2 ^ 53 + 51) = lit "8796093022208.1 KB" ∧
  format_kib (2 ^ 63 - 1) = lit "9007199254740992.0 KB".
Proof. by vm_compute. Qed.

Example escape_examples :
  encode_basestring_ascii (lit "a\b" ++ [10; 1; 0x7F; 0xE9; 0x1F600]%N) =
  dq ++ lit "a\\b\n\u0001\u007f\u00e9\ud83d\ude00" ++ dq.
Proof. reflexivity. Qed.

Example utf8_examples :
  utf8 [0x41; 0xE9; 0x20AC; 0x1F600]%N =
    Some [0x41; 0xC3; 0xA9; 0xE2; 0x82; 0xAC; 0xF0; 0x9F; 0x98; 0x80]%N ∧
  utf8 [0x41; 0xDC80]%N = None.
Proof. split; reflexivity. Qed.

Example parse_parts_example :
  parse_parts (lit "a//b/./../c/") = [lit "a"; lit "b"; lit ".."; lit "c"].
Proof. reflexivity. Qed.

(** * Further properties of the code *)

Local Open Scope N_scope.

(** ** Request paths and path objects *)

Lemma relative_to_target {F} (w : @world F) s :
  relative_to (target_path w s) (base_path w) = Some (parse_parts s).
Proof. rewrite target_path_parse. apply relative_to_app. Qed.

(** X1: the path object of a request is the base path followed by the non-empty
    segments of the request path other than [.]: cutting the request path at
    a slash cuts the segments, so leading, trailing and repeated slashes and
    [.] segments make no difference, and [path.relative_to(base_path)] gives
    the segments back and never raises. *)
Theorem target_path_segments {F} (w : @world F) (s1 s2 : str) :
  target_path w (s1 ++ lit "/" ++ s2) =
    base_path w ++ parse_parts s1 ++ parse_parts s2 ∧
  target_path w s1 = base_path w ++ parse_parts s1 ∧
  target_path w (lit "/" ++ s1) = target_path w s1 ∧
  target_path w (s1 ++ lit "/") = target_path w s1 ∧
  target_path w (s1 ++ lit "/./" ++ s2) = target_path w (s1 ++ lit "/" ++ s2) ∧
  target_path w (s1 ++ lit "//" ++ s2) = target_path w (s1 ++ lit "/" ++ s2) ∧
  relative_to (target_path w s1) (base_path w) = Some (parse_parts s1).
Proof.
  pose proof (target_path_parse w) as Ht.
  assert (∀ a b, parse_parts (a ++ 47 :: b) = parse_parts a ++ parse_parts b) as Hcut.
  { intros a b. unfold parse_parts. by rewrite split_app_sep, filter_app. }
  change (lit "/") with [47]. change (lit "/./") with [47; 46; 47].
  change (lit "//") with [47; 47]. simpl. rewrite !Ht.
  assert (∀ b, parse_parts (47 :: b) = parse_parts b) as Hlead.
  { intros b. apply (Hcut [] b). }
  assert (∀ b, parse_parts (46 :: 47 :: b) = parse_parts b) as Hdot.
  { intros b. apply (Hcut [46] b). }
  split; [by rewrite Hcut|]. split; [done|].
  split; [by rewrite Hlead|].
  split; [by rewrite Hcut, app_nil_r|].
  split; [by rewrite !Hcut, Hdot|].
  split; [by rewrite !Hcut, Hlead|].
  apply relative_to_app.
Qed.

(** ** The outcomes of a request *)

Lemma lookup_entry_is_Some e es : e ∈ es → is_Some (lookup_entry e.1 es).
Proof.
  induction es as [|[n nd] es IH]; [by intros ?%elem_of_nil|].
  intros [->|He]%elem_of_cons; simpl.
  - rewrite decide_True by done. eauto.
  - case_decide; [eauto|by apply IH].
Qed.

Lemma resolve_child_is_Some root path loc sz es e :
  resolve root path = Some (loc, Dir sz es) → e ∈ es →
  is_Some (resolve root (path ++ [e.1])).
Proof.
  unfold resolve. intros Hres He. rewrite walk_app.
  destruct (walk [] root path) as [[up nd]|]; [|done].
  simpl in Hres. injection Hres as <- ->. simpl.
  repeat case_decide; try (by eauto).
  - destruct up as [|[? parent] up']; simpl; eauto.
  - destruct (lookup_entry_is_Some e es He) as [nd ->]. simpl. eauto.
Qed.

Lemma child_item_returns {F} (w : @world F) path loc sz es e tr :
  resolve (fs_root w) path = Some (loc, Dir sz es) → e ∈ es →
  ∃ it, child_item w (path ++ [e.1]) tr = (Return it, tr).
Proof.
  intros Hres He.
  destruct (resolve_child_is_Some _ _ _ _ _ _ Hres He) as [[cl cn] Hc].
  unfold child_item, is_dir, stat_size. rewrite Hc.
  destruct cn as [fsz|dsz des]; [|eauto].
  unfold mbind, M_bind, or_raise, mret, M_ret; simpl.
  destruct (0 <? fsz); eauto.
Qed.

Lemma for_each_returns {A B} (f : A → M B) (l : list A) tr :
  (∀ x, x ∈ l → ∃ y, f x tr = (Return y, tr)) →
  ∃ ys, for_each f l tr = (Return ys, tr) ∧ length ys = length l.
Proof.
  induction l as [|x l IH]; intros Hf.
  - by exists [].
  - destruct (Hf x) as [y Hy]; [set_solver|].
    destruct IH as (ys & Hys & Hlen); [intros; apply Hf; set_solver|].
    exists (y :: ys). cbn [for_each]. unfold mbind, M_bind.
    rewrite Hy, Hys. simpl. by rewrite Hlen.
Qed.

Lemma listing_items_returns {F} (w : @world F) path loc sz es tr :
  resolve (fs_root w) path = Some (loc, Dir sz es) →
  ∃ entries,
    listing_items w path tr =
      (Return ((if decide (path ≠ base_path w) then [parent_item] else []) ++ entries), tr) ∧
    length entries = length es.
Proof.
  intros Hres. unfold listing_items, iterdir. rewrite Hres.
  unfold mbind, M_bind; simpl.
  destruct (for_each_returns (child_item w)
              (sorted ((λ e : str * node, path ++ [e.1]) <$> es)) tr)
    as (ys & Hys & Hlen).
  { intros child Hchild. unfold sorted in Hchild.
    rewrite merge_sort_Permutation in Hchild.
    apply list_elem_of_fmap in Hchild as (e & -> & He).
    by eapply child_item_returns. }
  exists ys. rewrite Hys. split; [done|].
  rewrite Hlen. unfold sorted.
  by rewrite merge_sort_Permutation, length_fmap.
Qed.

Lemma listing_html_returns {F} (w : @world F) self_path loc sz es tr :
  resolve (fs_root w) (target_path w self_path) = Some (loc, Dir sz es) →
  ∃ items,
    listing_items w (target_path w self_path) tr = (Return items, tr) ∧
    listing_html w (target_path w self_path) tr =
      (Return (render_html
                 (lit "Directory listing for /" ++ str_of_relpath (parse_parts self_path))
                 (time_ctime w) (join [10] (file_item <$> items))), tr).
Proof.
  intros Hres.
  destruct (listing_items_returns w _ loc sz es tr Hres) as (entries & Hitems & _).
  eexists. split; [exact Hitems|].
  unfold listing_html. rewrite relative_to_target.
  unfold mbind, M_bind; simpl. by rewrite Hitems.
Qed.

Lemma do_GET_file {F} (float_repr : F → str) (w : @world F) self_path loc fsz :
  self_path ≠ lit "/tcpstates" →
  resolve (fs_root w) (target_path w self_path) = Some (loc, File fsz) →
  run (do_GET float_repr w self_path) = (Return (), [SuperGET]).
Proof.
  intros Hne Hres. rewrite do_GET_file_or_dir by done.
  unfold run, try_except, handle_file_or_dir, exists_, is_dir. rewrite Hres.
  by rewrite bool_decide_true by eauto.
Qed.

Lemma tree_outcomes {F} (float_repr : F → str) (w : @world F) (self_path : str) :
  self_path ≠ lit "/tcpstates" →
  match resolve (fs_root w) (target_path w self_path) with
  | None =>
      run (do_GET float_repr w self_path) =
        (Return (), [SendError 404 (Msg (lit "Not Found"))])
  | Some (_, File _) =>
      run (do_GET float_repr w self_path) = (Return (), [SuperGET])
  | Some (_, Dir _ _) =>
      ∃ html,
        run (listing_html w (target_path w self_path)) = (Return html, []) ∧
        run (do_GET float_repr w self_path) =
          (Return (),
           listing_headers html ++
           match utf8 html with
           | Some data => [Write data]
           | None =>
               [SendError 500 (MsgExc (lit "Directory listing failed: ")
                                      UnicodeEncodeError)]
           end)
  end.
Proof.
  intros Hne.
  destruct (resolve (fs_root w) (target_path w self_path))
    as [[loc [fsz|dsz es]]|] eqn:Hres.
  - by eapply do_GET_file.
  - destruct (listing_html_returns w self_path loc dsz es [] Hres)
      as (items & _ & Hhtml).
    eexists. split; [exact Hhtml|].
    rewrite (do_GET_directory float_repr w self_path loc dsz es _ Hne Hres Hhtml).
    by destruct (utf8 _).
  - by apply do_GET_missing.
Qed.

(** ** The listing does not depend on the enumeration order *)

Lemma entries_same_name (es : list (str * node)) e1 e2 :
  NoDup es.*1 → e1 ∈ es → e2 ∈ es → e1.1 = e2.1 → e1 = e2.
Proof.
  intros Hdup H1 H2 Hn.
  pose proof (lookup_entry_elem e1 es Hdup H1) as L1.
  pose proof (lookup_entry_elem e2 es Hdup H2) as L2.
  rewrite Hn in L1. rewrite L1 in L2. injection L2 as L2.
  destruct e1, e2; simpl in *; congruence.
Qed.

Lemma by_name_order_independent (es es' : list (str * node)) :
  NoDup es.*1 → es ≡ₚ es' → by_name es = by_name es'.
Proof.
  intros Hdup Hperm. unfold by_name.
  apply (Sorted_unique_strong (λ e1 e2 : str * node, ¬ str_lt e2.1 e1.1)).
  - intros x1 x2 H1 H2 H12 H21.
    rewrite merge_sort_Permutation in H1, H2. rewrite <-Hperm in H2.
    apply (entries_same_name es); [done..|].
    by destruct (str_lt_trichotomy x1.1 x2.1) as [?|[?|?]].
  - apply Sorted_merge_sort, _.
  - apply Sorted_merge_sort, _.
  - by rewrite !merge_sort_Permutation.
Qed.

(** X4: the rows of a listing do not depend on the order in which the system
    enumerates the directory: two directories with the same entries, in any
    order, under the same path, are listed alike. *)
Theorem listing_order_independent {F} (w w' : @world F) (path : Path)
    loc sz es loc' sz' es' :
  base_path w = base_path w' →
  resolve (fs_root w) path = Some (loc, Dir sz es) →
  resolve (fs_root w') path = Some (loc', Dir sz' es') →
  entries_ok es →
  es ≡ₚ es' →
  run (listing_items w path) = run (listing_items w' path).
Proof.
  intros Hbase Hres Hres' Hok Hperm.
  assert (entries_ok es') as Hok'.
  { destruct Hok as [Hn Hd]. split; by rewrite <-Hperm. }
  unfold run.
  rewrite (listing_items_run w path loc sz es) by done.
  rewrite (listing_items_run w' path loc' sz' es') by done.
  rewrite Hbase, (by_name_order_independent es es') by (done || apply Hok).
  done.
Qed.

Lemma listing_order_independent_witness :
  run (listing_items example_world [lit "srv"; lit "www"]) =
  run (listing_items
         (World (Dir 4096 [(lit "srv", Dir 4096 [(lit "www", Dir 4096 (reverse www))])])
                [lit "srv"; lit "www"] (lit "vm2") () (lit "Wed Nov  4 09:00:00 2026"))
         [lit "srv"; lit "www"]).
Proof.
  apply (listing_order_independent example_world _ [lit "srv"; lit "www"]
           [lit "srv"; lit "www"] 4096 www [lit "srv"; lit "www"] 4096 (reverse www)).
  - reflexivity.
  - vm_compute. reflexivity.
  - vm_compute. reflexivity.
  - split.
    + apply (bool_decide_unpack _). vm_compute. reflexivity.
    + apply (bool_decide_unpack _). vm_compute. reflexivity.
  - by rewrite reverse_Permutation.
Defined.

(** ** Size labels *)

Lemma round_half_even_bounds num den :
  num `div` den ≤ round_half_even num den ≤ num `div` den + 1.
Proof.
  unfold round_half_even.
  destruct (2 * (num `mod` den) ?= den); [destruct (N.even _)| |]; lia.
Qed.

Lemma round_half_even_mono n1 n2 den :
  0 < den → n1 ≤ n2 → round_half_even n1 den ≤ round_half_even n2 den.
Proof.
  intros Hden Hle.
  pose proof (N.Div0.div_le_mono n1 n2 den Hle) as Hq.
  destruct (decide (n1 `div` den = n2 `div` den)) as [Heq|Hne].
  - pose proof (N.div_mod n1 den ltac:(lia)) as H1.
    pose proof (N.div_mod n2 den ltac:(lia)) as H2.
    unfold round_half_even. rewrite Heq in *.
    destruct (N.compare_spec (2 * (n1 `mod` den)) den),
             (N.compare_spec (2 * (n2 `mod` den)) den);
      try destruct (N.even _); lia.
  - pose proof (round_half_even_bounds n1 den).
    pose proof (round_half_even_bounds n2 den). lia.
Qed.

Lemma round_to_double_range n :
  2 ^ 53 ≤ n →
  2 ^ N.log2 n ≤ round_to_double n ≤ 2 ^ (N.log2 n + 1).
Proof.
  intros Hn. unfold round_to_double.
  assert (53 ≤ N.log2 n) as Hlog by (apply N.log2_le_pow2; lia).
  destruct (N.log2_spec n) as [Hlo Hhi]; [lia|].
  set (e := N.log2 n - 52) in *.
  assert (2 ^ e ≠ 0) as Hne by (apply N.pow_nonzero; lia).
  assert (N.log2 n = 52 + e) as Hsplit by lia.
  rewrite <-N.add_1_r in Hhi.
  replace (N.log2 n + 1) with (53 + e) in * by lia. rewrite Hsplit in *.
  rewrite N.pow_add_r in *.
  pose proof (round_half_even_bounds n (2 ^ e)) as [Hq1 Hq2].
  assert (2 ^ 52 ≤ n `div` 2 ^ e) as Hd1.
  { apply N.div_le_lower_bound; [done|]. lia. }
  assert (n `div` 2 ^ e < 2 ^ 53) as Hd2.
  { apply N.Div0.div_lt_upper_bound. lia. }
  split.
  - apply N.mul_le_mono_r. lia.
  - rewrite N.pow_add_r. apply N.mul_le_mono_r. lia.
Qed.

Lemma round_to_double_mono n1 n2 :
  n1 ≤ n2 → round_to_double n1 ≤ round_to_double n2.
Proof.
  intros Hle.
  destruct (decide (n2 < 2 ^ 53)) as [Hs2|Hl2].
  { rewrite !round_to_double_exact by lia. done. }
  pose proof (round_to_double_range n2 ltac:(lia)) as [Hlo2 _].
  assert (53 ≤ N.log2 n2) as Hlog2 by (apply N.log2_le_pow2; lia).
  destruct (decide (n1 < 2 ^ 53)) as [Hs1|Hl1].
  { rewrite (round_to_double_exact n1) by done.
    assert (2 ^ 53 ≤ 2 ^ N.log2 n2) by (apply N.pow_le_mono_r; lia). lia. }
  pose proof (N.log2_le_mono n1 n2 Hle) as Hlog.
  destruct (decide (N.log2 n1 = N.log2 n2)) as [Heq|Hne].
  - unfold round_to_double. rewrite Heq. apply N.mul_le_mono_r.
    apply round_half_even_mono; [|done].
    apply N.neq_0_lt_0, N.pow_nonzero. lia.
  - pose proof (round_to_double_range n1 ltac:(lia)) as [_ Hhi1].
    assert (2 ^ (N.log2 n1 + 1) ≤ 2 ^ N.log2 n2) by (apply N.pow_le_mono_r; lia).
    lia.
Qed.

Lemma tenths_of_kib_mono sz1 sz2 :
  sz1 ≤ sz2 → tenths_of_kib sz1 ≤ tenths_of_kib sz2.
Proof.
  intros H. apply round_half_even_mono; [lia|].
  apply N.mul_le_mono_l. by apply round_to_double_mono.
Qed.

(** X5: a larger file never gets a smaller size label: the number of tenths of a
    kibibyte shown grows with the size. *)
Theorem size_label_monotone (sz1 sz2 : N) :
  sz1 ≤ sz2 → tenths_of_kib sz1 ≤ tenths_of_kib sz2.
Proof. apply tenths_of_kib_mono. Qed.

Lemma size_label_monotone_witness : tenths_of_kib 1000 ≤ tenths_of_kib 2048.
Proof. apply size_label_monotone. lia. Defined.

Lemma string_of_uint_digits d :
  Forall (λ c, 48 ≤ c ≤ 57) (lit (NilEmpty.string_of_uint d)).
Proof. induction d; simpl; constructor; (done || lia). Qed.

Lemma str_of_int_digits n : Forall (λ c, 48 ≤ c ≤ 57) (str_of_int n).
Proof.
  unfold str_of_int, NilZero.string_of_uint.
  destruct (N.to_uint n) as [|u|u|u|u|u|u|u|u|u|u].
  - change (lit "0") with [48]. constructor; [lia|constructor].
  - exact (string_of_uint_digits (Decimal.D0 u)).
  - exact (string_of_uint_digits (Decimal.D1 u)).
  - exact (string_of_uint_digits (Decimal.D2 u)).
  - exact (string_of_uint_digits (Decimal.D3 u)).
  - exact (string_of_uint_digits (Decimal.D4 u)).
  - exact (string_of_uint_digits (Decimal.D5 u)).
  - exact (string_of_uint_digits (Decimal.D6 u)).
  - exact (string_of_uint_digits (Decimal.D7 u)).
  - exact (string_of_uint_digits (Decimal.D8 u)).
  - exact (string_of_uint_digits (Decimal.D9 u)).
Qed.

Lemma app_pivot_inj (x : N) (l1 l2 r1 r2 : str) :
  x ∉ l1 → x ∉ l2 → l1 ++ x :: r1 = l2 ++ x :: r2 → l1 = l2 ∧ r1 = r2.
Proof.
  revert l2. induction l1 as [|a l1 IH]; intros [|b l2] H1 H2 Heq; simpl in Heq.
  - by injection Heq as ->.
  - injection Heq as -> _. destruct H2. apply list_elem_of_here.
  - injection Heq as -> _. destruct H1. apply list_elem_of_here.
  - injection Heq as -> Hrest.
    destruct (IH l2) as [-> ->]; [| |done|done].
    + intros ?. apply H1. by apply list_elem_of_further.
    + intros ?. apply H2. by apply list_elem_of_further.
Qed.

Lemma format_1f_inj t1 t2 : format_1f t1 = format_1f t2 → t1 = t2.
Proof.
  unfold format_1f. change (lit ".") with [46]. simpl. intros Heq.
  assert (∀ n, 46 ∉ str_of_int n) as Hdot.
  { intros n Hin. pose proof (str_of_int_digits n) as Hd.
    rewrite Forall_forall in Hd. apply Hd in Hin. lia. }
  apply app_pivot_inj in Heq as [Hq Hr]; [|done..].
  apply str_of_int_inj in Hq. apply str_of_int_inj in Hr.
  rewrite (N.div_mod t1 10), (N.div_mod t2 10) by lia. congruence.
Qed.

Lemma tenths_zero sz : tenths_of_kib sz = 0 ↔ sz ≤ 51.
Proof.
  split.
  - intros Hz. destruct (decide (sz ≤ 51)) as [|Hbig]; [done|].
    pose proof (tenths_of_kib_mono 52 sz ltac:(lia)) as Hle.
    change (tenths_of_kib 52) with 1 in Hle. lia.
  - intros Hle. unfold tenths_of_kib.
    rewrite round_to_double_exact by (change (2 ^ 53) with 9007199254740992; lia).
    destruct (round_half_even_nearest (10 * sz) 1024) as [H1 H2]; [lia|].
    change (1024 `div` 2) with 512 in H1. lia.
Qed.

Lemma format_kib_inj sz1 sz2 :
  format_kib sz1 = format_kib sz2 ↔ tenths_of_kib sz1 = tenths_of_kib sz2.
Proof.
  unfold format_kib. split; [|by intros ->].
  intros Heq%app_inv_tail. by apply format_1f_inj.
Qed.

Lemma format_kib_dot sz : 46 ∈ format_kib sz.
Proof.
  unfold format_kib, format_1f. change (lit ".") with [46].
  rewrite !elem_of_app. left. right. left. apply list_elem_of_here.
Qed.

Lemma child_item_file {F} (w : @world F) (child : Path) loc (fsz : N) :
  resolve (fs_root w) child = Some (loc, File fsz) →
  run (child_item w child) =
    (Return (name child, lit "File", if 0 <? fsz then format_kib fsz else lit "0 KB"), []).
Proof.
  intros Hres. unfold run, child_item, is_dir, stat_size. rewrite Hres.
  unfold mbind, M_bind, or_raise, mret, M_ret; simpl.
  by destruct (0 <? fsz).
Qed.

(** X6: the size labels shown for two files of the served tree are equal
    exactly when both files are empty, or neither is and their sizes, as the
    code divides them, round to the same number of tenths of a kibibyte; a
    file is shown as ["0.0 KB"] exactly when it has between 1 and 51 bytes. *)
Theorem size_label_classes {F} (w : @world F) (child1 child2 : Path)
    loc1 loc2 (sz1 sz2 : N) :
  resolve (fs_root w) child1 = Some (loc1, File sz1) →
  resolve (fs_root w) child2 = Some (loc2, File sz2) →
  sz1 < 2 ^ 63 → sz2 < 2 ^ 63 →
  ∃ label1 label2,
    run (child_item w child1) = (Return (name child1, lit "File", label1), []) ∧
    run (child_item w child2) = (Return (name child2, lit "File", label2), []) ∧
    (label1 = label2 ↔
       (sz1 = 0 ∧ sz2 = 0) ∨
       (0 < sz1 ∧ 0 < sz2 ∧ tenths_of_kib sz1 = tenths_of_kib sz2)) ∧
    (label1 = lit "0.0 KB" ↔ 1 ≤ sz1 ≤ 51).
Proof.
  intros Hres1 Hres2 _ _. eexists _, _.
  split; [by apply (child_item_file w child1 loc1)|].
  split; [by apply (child_item_file w child2 loc2)|].
  assert (∀ sz, format_kib sz ≠ lit "0 KB") as Hdot.
  { intros sz Heq. pose proof (format_kib_dot sz) as Hin.
    rewrite Heq in Hin. revert Hin.
    apply (proj1 (bool_decide_eq_false _)). reflexivity. }
  split.
  - destruct (N.ltb_spec 0 sz1), (N.ltb_spec 0 sz2).
    + rewrite format_kib_inj. split; [intros ?; right; done|].
      intros [[? _]|(_ & _ & ?)]; [lia|done].
    + split; [by intros ?%Hdot|]. intros [[? _]|(_ & ? & _)]; lia.
    + split; [by intros ?%symmetry%Hdot|]. intros [[_ ?]|(? & _ & _)]; lia.
    + split; [intros _; left; lia|done].
  - destruct (N.ltb_spec 0 sz1).
    + change (lit "0.0 KB") with (format_kib 0). rewrite format_kib_inj.
      change (tenths_of_kib 0) with 0. rewrite tenths_zero. lia.
    + split; [|lia]. intros Heq. exfalso. revert Heq.
      apply (proj1 (bool_decide_eq_false _)). reflexivity.
Qed.

Lemma size_label_classes_witness :
  ∃ label1 label2,
    run (child_item example_world [lit "srv"; lit "www"; lit "a.txt"]) =
      (Return (name [lit "srv"; lit "www"; lit "a.txt"], lit "File", label1), []) ∧
    run (child_item example_world [lit "srv"; lit "www"; lit "b.txt"]) =
      (Return (name [lit "srv"; lit "www"; lit "b.txt"], lit "File", label2), []) ∧
    (label1 = label2 ↔
       (0 = 0 ∧ 2048 = 0) ∨
       (0 < 0 ∧ 0 < 2048 ∧ tenths_of_kib 0 = tenths_of_kib 2048)) ∧
    (label1 = lit "0.0 KB" ↔ 1 ≤ 0 ≤ 51).
Proof.
  apply (size_label_classes example_world
           [lit "srv"; lit "www"; lit "a.txt"] [lit "srv"; lit "www"; lit "b.txt"]
           [lit "srv"; lit "www"; lit "a.txt"] [lit "srv"; lit "www"; lit "b.txt"]).
  - vm_compute. reflexivity.
  - vm_compute. reflexivity.
  - reflexivity.
  - reflexivity.
Defined.

(** X7: an empty file is the only one labelled ["0 KB"]: the tuple of a file
    child has its name, the kind ["File"], and a label that is ["0 KB"]
    exactly when the file has no bytes. *)
Theorem empty_file_label {F} (w : @world F) (child : Path) loc (fsz : N) :
  resolve (fs_root w) child = Some (loc, File fsz) →
  ∃ label,
    run (child_item w child) = (Return (name child, lit "File", label), []) ∧
    (label = lit "0 KB" ↔ fsz = 0).
Proof.
  intros Hres. unfold run, child_item, is_dir, stat_size. rewrite Hres.
  unfold mbind, M_bind, or_raise, mret, M_ret; simpl.
  destruct (N.ltb_spec 0 fsz) as [Hpos|Hzero].
  - eexists. split; [done|]. split; [|lia].
    intros Heq. exfalso.
    assert (46 ∈ format_kib fsz) as Hin.
    { unfold format_kib, format_1f. change (lit ".") with [46].
      rewrite !elem_of_app. left. right. left. apply list_elem_of_here. }
    rewrite Heq in Hin. revert Hin.
    apply (proj1 (bool_decide_eq_false _)). reflexivity.
  - eexists. split; [done|]. split; [lia|done].
Qed.

Lemma empty_file_label_witness :
  ∃ label,
    run (child_item example_world [lit "srv"; lit "www"; lit "a.txt"]) =
      (Return (name [lit "srv"; lit "www"; lit "a.txt"], lit "File", label), []) ∧
    (label = lit "0 KB" ↔ 0 = 0).
Proof.
  apply (empty_file_label example_world _ [lit "srv"; lit "www"; lit "a.txt"] 0).
  vm_compute. reflexivity.
Defined.

(** ** UTF-8 *)

Lemma lor_lt_256 a b : a < 256 → b < 256 → N.lor a b < 256.
Proof.
  intros Ha Hb. destruct (decide (N.lor a b = 0)) as [->|Hne]; [lia|].
  change 256 with (2 ^ 8). apply N.log2_lt_pow2; [lia|].
  rewrite N.log2_lor. apply N.max_lub_lt.
  - destruct (decide (a = 0)) as [->|]; [done|]. apply N.log2_lt_pow2; lia.
  - destruct (decide (b = 0)) as [->|]; [done|]. apply N.log2_lt_pow2; lia.
Qed.

Lemma continuation_byte x : N.lor 0x80 (N.land x 0x3F) < 256.
Proof.
  apply lor_lt_256; [lia|]. change 0x3F with (N.ones 6). rewrite N.land_ones.
  pose proof (N.mod_lt x (2 ^ 6)). lia.
Qed.

Lemma leading_byte m c k bound :
  m < 256 → bound < 256 → c < bound * 2 ^ k → N.lor m (N.shiftr c k) < 256.
Proof.
  intros Hm Hb Hc. apply lor_lt_256; [done|]. rewrite N.shiftr_div_pow2.
  assert (c `div` 2 ^ k < bound); [|lia].
  apply N.Div0.div_lt_upper_bound. lia.
Qed.

Lemma utf8_char_octets c b :
  utf8_char c = Some b → Forall (λ x, x < 256) b ∧ (1 ≤ length b ≤ 4)%nat.
Proof.
  unfold utf8_char.
  destruct (N.ltb_spec c 0x80); [intros [= <-]; split; [repeat constructor|simpl]; lia|].
  destruct (N.ltb_spec c 0x800).
  { intros [= <-]. split; [|simpl; lia].
    repeat constructor; [|apply continuation_byte].
    apply (leading_byte _ _ _ 32); lia. }
  destruct (is_surrogate c); [done|].
  destruct (N.ltb_spec c 0x10000).
  { intros [= <-]. split; [|simpl; lia].
    repeat constructor; try apply continuation_byte.
    apply (leading_byte _ _ _ 16); lia. }
  destruct (N.ltb_spec c 0x110000); [|done].
  intros [= <-]. split; [|simpl; lia].
  repeat constructor; try apply continuation_byte.
  apply (leading_byte _ _ _ 5); lia.
Qed.

Lemma utf8_char_None c : utf8_char c = None ↔ unencodable c.
Proof.
  unfold utf8_char, unencodable, is_surrogate.
  destruct (N.ltb_spec c 0x80), (N.ltb_spec c 0x800), (N.leb_spec 0xD800 c),
    (N.leb_spec c 0xDFFF), (N.ltb_spec c 0x10000), (N.ltb_spec c 0x110000);
    simpl; split; intros; try done; try lia; intuition (try done; try lia).
Qed.

Lemma utf8_None s : utf8 s = None ↔ Exists unencodable s.
Proof.
  induction s as [|c s IH]; simpl.
  - split; [done|by intros ?%Exists_nil].
  - rewrite Exists_cons, <-IH, <-utf8_char_None.
    destruct (utf8_char c), (utf8 s); split; intros H;
      try done; try (destruct H; done); auto.
Qed.

(** X8: [str.encode('utf-8')] fails exactly on a string with a surrogate (or a
    value that is no code point); otherwise it gives octets, at least one and
    at most four per character, so the body of a listing can be up to four
    times as long as its [Content-Length] says. *)
Theorem utf8_octets (s : str) :
  (utf8 s = None ↔ Exists unencodable s) ∧
  ∀ d, utf8 s = Some d →
       Forall (λ x, x < 256) d ∧ (length s ≤ length d ≤ 4 * length s)%nat.
Proof.
  split; [apply utf8_None|].
  induction s as [|c s IH]; intros d; simpl.
  - intros [= <-]. split; [constructor|simpl; lia].
  - destruct (utf8_char c) as [b|] eqn:Hc; [|done].
    destruct (utf8 s) as [bs|]; [|done]. intros [= <-].
    destruct (utf8_char_octets _ _ Hc) as [Hb Hlen].
    destruct (IH bs eq_refl) as [Hbs Hlens].
    split; [by apply Forall_app|]. rewrite length_app. lia.
Qed.

Lemma utf8_infix_None x s : infix x s → utf8 x = None → utf8 s = None.
Proof.
  intros (pre & post & ->). rewrite !utf8_None, !Exists_app. auto.
Qed.

Lemma file_item_name it : infix it.1.1 (file_item it).
Proof.
  unfold file_item.
  exists (lit "<li class=" ++ dq ++ lit "file-item" ++ dq ++ lit ">" ++
          lit "<a href=" ++ dq).
  eexists. rewrite <-!app_assoc. reflexivity.
Qed.

Lemma entry_item_name e : infix e.1 (entry_item e).1.1.
Proof.
  unfold entry_item. destruct e as [n [fsz|dsz des]]; simpl.
  - exists [], []. by rewrite app_nil_r.
  - by exists [], (lit "/").
Qed.

(** X9: a directory with an entry whose name cannot be encoded (a file name with
    an undecodable byte) cannot be listed: the status 200 and the headers,
    [Content-Length] included, are sent, no body follows, and the error 500
    is sent after them on the same connection. *)
Theorem unencodable_name {F} (float_repr : F → str) (w : @world F) (self_path : str)
    loc sz es e :
  self_path ≠ lit "/tcpstates" →
  resolve (fs_root w) (target_path w self_path) = Some (loc, Dir sz es) →
  entries_ok es →
  e ∈ es →
  Exists unencodable e.1 →
  ∃ html,
    run (listing_html w (target_path w self_path)) = (Return html, []) ∧
    run (do_GET float_repr w self_path) =
      (Return (),
       listing_headers html ++
       [SendError 500 (MsgExc (lit "Directory listing failed: ") UnicodeEncodeError)]).
Proof.
  intros Hne Hres Hok He Hbad.
  destruct (listing_html_run w self_path loc sz es [] Hres Hok)
    as (items & title & Hitems & Hhtml).
  eexists. split; [exact Hhtml|].
  rewrite (do_GET_directory float_repr w self_path loc sz es _ Hne Hres Hhtml).
  rewrite (utf8_infix_None e.1); [done| |by apply utf8_None].
  rewrite (listing_items_run w _ loc sz es) in Hitems by done.
  injection Hitems as <-.
  eapply infix_trans; [apply entry_item_name|].
  eapply infix_trans; [apply file_item_name|].
  eapply infix_trans; [|apply render_html_infix].
  apply join_infix, list_elem_of_fmap_2, elem_of_app. right.
  apply list_elem_of_fmap_2. by rewrite by_name_perm.
Qed.

Lemma unencodable_name_witness :
  ∃ html,
    run (listing_html surrogate_world (target_path surrogate_world (lit "/"))) =
      (Return html, []) ∧
    run (do_GET example_repr surrogate_world (lit "/")) =
      (Return (),
       listing_headers html ++
       [SendError 500 (MsgExc (lit "Directory listing failed: ") UnicodeEncodeError)]).
Proof.
  apply (unencodable_name example_repr surrogate_world (lit "/") [] 4096
           [([0xDC80], File 1)] ([0xDC80], File 1)).
  - vm_compute. discriminate.
  - vm_compute. reflexivity.
  - split.
    + apply (bool_decide_unpack _). vm_compute. reflexivity.
    + apply (bool_decide_unpack _). vm_compute. reflexivity.
  - apply list_elem_of_here.
  - apply Exists_cons_hd. left. reflexivity.
Defined.

(** ** The request lifecycle: logging, progress, completion *)

Local Open Scope nat_scope.

Lemma exec_thread_leave_log i r v t :
  at_pc t = Handling →
  exec_thread (leave i r) v t =
  Some (S v, Thread (Completed (propagated r)) (S (released t)) true (log t ++ logged r)).
Proof.
  destruct t as [p rel cc lg]. simpl. intros ->.
  destruct r as [e|]; [destruct e|]; simpl; by rewrite ?app_nil_r.
Qed.

(** X10: however the body of [handle_one_request] ends, the method runs to its
    end and changes nothing but the semaphore, which gets its slot back, and
    its own thread: a client disconnect is logged as a warning and any other
    [Exception] as an error, neither is raised further, and only an exception
    that is no [Exception] leaves the method, unlogged; the connection is
    marked for closing in every case. *)
Theorem request_exit (s : state) (i : nat) (t : thread) (r : option exn) :
  threads s !! i = Some t →
  at_pc t = Handling →
  exec (leave i r) s =
  Some (State (S (semaphore s))
              (<[i := Thread (Completed (propagated r)) (S (released t)) true
                             (log t ++ logged r)]> (threads s))).
Proof.
  intros Ht Hpc.
  rewrite (exec_one_thread i _ s t Ht (leave_one_thread i r)).
  by rewrite exec_thread_leave_log.
Qed.

Lemma request_exit_witness :
  exec (leave 0 (Some BrokenPipeError))
       (State 0 [Thread Handling 0 false []; Thread Accepted 0 false []]) =
  Some (State 1 [Thread (Completed None) 1 true
                        [LogWarning (lit "Client disconnected prematurely")];
                 Thread Accepted 0 false []]).
Proof.
  apply (request_exit (State 0 [Thread Handling 0 false []; Thread Accepted 0 false []])
           0 (Thread Handling 0 false []) (Some BrokenPipeError)); reflexivity.
Defined.

Lemma step_thread_remaining a v t v' t' :
  step_thread a v t = Some (v', t') → remaining t' < remaining t.
Proof.
  unfold step_thread, remaining, Semaphore.acquire.
  destruct a, (at_pc t) eqn:Hpc; intros Hs; simplify_eq/=.
  - destruct v; simplify_eq/=. lia.
  - lia.
  - destruct r; simpl; lia.
  - repeat case_decide; repeat case_match; simplify_eq/=; lia.
  - lia.
Qed.

Lemma sum_list_insert (f : thread → nat) (l : list thread) i t t' :
  l !! i = Some t →
  sum_list (f <$> <[i:=t']> l) + f t = sum_list (f <$> l) + f t'.
Proof.
  revert i. induction l as [|x l IH]; intros i Hi; [done|].
  destruct i as [|i]; simpl in Hi.
  - injection Hi as ->. simpl. lia.
  - change (<[S i:=t']> (x :: l)) with (x :: <[i:=t']> l).
    rewrite !fmap_cons. simpl. specialize (IH i Hi). lia.
Qed.

Lemma fire_work a s s' : fire a s = Some s' → work s' < work s.
Proof.
  unfold fire, work. intros Hf.
  destruct (threads s !! thread_of a) as [t|] eqn:Ht; simplify_eq/=.
  destruct (step_thread a (semaphore s) t) as [[v' t']|] eqn:Hst; simplify_eq/=.
  pose proof (sum_list_insert remaining _ _ _ t' Ht).
  pose proof (step_thread_remaining _ _ _ _ _ Hst). lia.
Qed.

Lemma fire_length a s s' : fire a s = Some s' → length (threads s') = length (threads s).
Proof.
  unfold fire. intros Hf.
  destruct (threads s !! thread_of a) as [t|]; simplify_eq/=.
  destruct (step_thread a (semaphore s) t) as [[v' t']|]; simplify_eq/=.
  apply length_insert.
Qed.

Lemma exec_work_length acts s s' :
  exec acts s = Some s' →
  length acts + work s' ≤ work s ∧ length (threads s') = length (threads s).
Proof.
  revert s. induction acts as [|a acts IH]; intros s; simpl.
  - intros [= ->]. lia.
  - destruct (fire a s) as [s1|] eqn:Hf; [|done]. simpl. intros He.
    destruct (IH _ He) as [Hw Hl].
    pose proof (fire_work _ _ _ Hf). pose proof (fire_length _ _ _ Hf). lia.
Qed.

Lemma exec_app acts1 acts2 s :
  exec (acts1 ++ acts2) s = exec acts1 s ≫= exec acts2.
Proof.
  revert s. induction acts1 as [|a acts1 IH]; intros s; simpl; [done|].
  destruct (fire a s); simpl; [apply IH|done].
Qed.

Lemma work_init maximum n : work (init maximum n) = 5 * n.
Proof.
  unfold work, init. cbn [threads].
  induction n as [|n IH]; [done|].
  change (replicate (S n) ?x) with (x :: replicate n x).
  rewrite fmap_cons. cbn [sum_list sum_list_with]. rewrite IH.
  unfold id, remaining. simpl. lia.
Qed.

Lemma active_step i v t :
  is_active t = true →
  ∃ a, thread_of a = i ∧ is_Some (step_thread a v t).
Proof.
  unfold is_active. destruct (at_pc t) as [| |r|e|r|r] eqn:Hpc; try done; intros _;
    [exists (Finish i None)|exists (Exit i)|exists (Except i)|exists (Finally i)];
    (split; [done|]); unfold step_thread; rewrite Hpc; eauto.
Qed.

Lemma no_active_no_slot (l : list thread) :
  Forall (λ t, is_active t = false) l →
  length (filter (λ t, holds_slot t = true) l) = 0.
Proof.
  induction 1 as [|t l Ht _ IH]; [done|].
  rewrite filter_cons_False; [done|].
  unfold is_active, holds_slot in *. by destruct (at_pc t).
Qed.

Lemma work_positive (l : list thread) :
  0 < sum_list (remaining <$> l) → ∃ i t, l !! i = Some t ∧ 0 < remaining t.
Proof.
  induction l as [|t l IH]; [simpl; lia|].
  rewrite fmap_cons. change (sum_list (?x :: ?k)) with (x + sum_list k). intros Hw.
  destruct (decide (0 < remaining t)) as [Ht|Ht].
  - by exists 0, t.
  - destruct IH as (i & t' & Hi & Ht'); [lia|]. by exists (S i), t'.
Qed.

Lemma progress maximum s :
  0 < maximum → gate_inv maximum s → 0 < work s →
  ∃ a, is_Some (fire a s).
Proof.
  intros Hmax [Hsem _] Hwork.
  destruct (decide (Exists (λ t, is_active t = true) (threads s))) as [Hex|Hno].
  - apply Exists_exists in Hex as (t & Ht & Hact).
    apply list_elem_of_lookup in Ht as [i Hi].
    destruct (active_step i (semaphore s) t Hact) as (a & Ha & [vt Hst]).
    exists a. unfold fire. rewrite Ha, Hi. simpl. rewrite Hst. simpl. eauto.
  - apply not_Exists_Forall in Hno; [|apply _].
    assert (Forall (λ t, is_active t = false) (threads s)) as Hidle.
    { eapply Forall_impl; [exact Hno|]. simpl. intros t. by destruct (is_active t). }
    unfold count in Hsem. rewrite (no_active_no_slot _ Hidle) in Hsem.
    destruct (work_positive _ Hwork) as (i & t & Hi & Ht).
    assert (at_pc t = Accepted) as Hpc.
    { rewrite Forall_forall in Hidle.
      pose proof (Hidle t (list_elem_of_lookup_2 _ _ _ Hi)) as Hidle_t.
      unfold is_active, remaining in *. destruct (at_pc t); (done || lia). }
    exists (Enter i). eapply fire_enter_free; [lia|done..].
Qed.

Lemma pending_work (l : list thread) :
  Exists (λ t, is_completed t = false) l → 0 < sum_list (remaining <$> l).
Proof.
  induction 1 as [t l Ht|t l _ IH]; rewrite fmap_cons;
    change (sum_list (?x :: ?k)) with (x + sum_list k); [|lia].
  unfold is_completed, remaining in *. destruct (at_pc t); (done || lia).
Qed.

Lemma no_work_completed (l : list thread) :
  sum_list (remaining <$> l) = 0 → Forall (λ t, is_completed t = true) l.
Proof.
  induction l as [|t l IH]; [constructor|]. rewrite fmap_cons.
  change (sum_list (?x :: ?k)) with (x + sum_list k). intros Hw.
  constructor; [|apply IH; lia].
  unfold is_completed, remaining in *. destruct (at_pc t); (done || lia).
Qed.

(** X11: the gate cannot deadlock: with a limit above zero, in every reachable
    state in which some request has not run to its end, some thread can take
    a step. *)
Theorem no_deadlock (maximum n : nat) (acts : list action) (s : state) :
  0 < maximum →
  exec acts (init maximum n) = Some s →
  Exists (λ t, is_completed t = false) (threads s) →
  ∃ a, is_Some (fire a s).
Proof.
  intros Hmax He Hpending.
  eapply progress; [done|by eapply reachable_inv|by apply pending_work].
Qed.

Lemma no_deadlock_witness :
  ∃ a, is_Some (fire a (State 0 [Thread Handling 0 false []; Thread Accepted 0 false []])).
Proof.
  apply (no_deadlock 1 2 [Enter 0]); [lia|reflexivity|].
  apply Exists_cons_hd. reflexivity.
Defined.

Lemma drain maximum s :
  0 < maximum → gate_inv maximum s →
  ∃ acts s', exec acts s = Some s' ∧ gate_inv maximum s' ∧ work s' = 0.
Proof.
  intros Hmax. remember (work s) as k eqn:Hk. revert s Hk.
  induction (lt_wf k) as [k _ IH]. intros s -> Hinv.
  destruct (decide (work s = 0)) as [Hz|Hnz].
  - by exists [], s.
  - destruct (progress maximum s Hmax Hinv) as (a & s1 & Hf); [lia|].
    destruct (IH (work s1) (fire_work _ _ _ Hf) s1 eq_refl) as (acts & s' & He & Hinv' & Hw).
    { by eapply fire_inv. }
    exists (a :: acts), s'. simpl. rewrite Hf. simpl. done.
Qed.

(** X12: every request can be served: with a limit above zero, every reachable
    state has a continuation in which all handler threads run to their end,
    each having released its slot once and marked its connection for
    closing, and the semaphore is back at the limit. *)
Theorem all_requests_complete (maximum n : nat) (acts : list action) (s : state) :
  0 < maximum →
  exec acts (init maximum n) = Some s →
  ∃ acts' s',
    exec (acts ++ acts') (init maximum n) = Some s' ∧
    length (threads s') = n ∧
    Forall (λ t, is_completed t = true ∧ released t = 1 ∧ close_connection t = true)
           (threads s') ∧
    semaphore s' = maximum.
Proof.
  intros Hmax He.
  destruct (drain maximum s Hmax (reachable_inv _ _ _ _ He))
    as (acts' & s' & He' & [Hsem Hok] & Hw).
  assert (exec (acts ++ acts') (init maximum n) = Some s') as Hall.
  { rewrite exec_app, He. exact He'. }
  exists acts', s'. split; [done|].
  pose proof (no_work_completed _ Hw) as Hdone.
  split; [|split].
  - destruct (exec_work_length _ _ _ Hall) as [_ ->].
    unfold init. simpl. apply length_replicate.
  - rewrite Forall_forall in Hdone, Hok. apply Forall_forall. intros t Ht.
    specialize (Hdone t Ht). destruct (Hok t Ht) as [Hrel Hclose].
    unfold is_completed, exited in *.
    destruct (at_pc t) as [| | | | |r] eqn:Hpc; try done.
    split; [done|]. split; [done|]. by eapply Hclose.
  - unfold count in Hsem. rewrite no_active_no_slot in Hsem; [lia|].
    eapply Forall_impl; [exact Hdone|]. intros t.
    unfold is_completed, is_active. by destruct (at_pc t).
Qed.

Lemma all_requests_complete_witness :
  ∃ acts' s',
    exec ([Enter 0; Enter 1] ++ acts') (init 2 3) = Some s' ∧
    length (threads s') = 3 ∧
    Forall (λ t, is_completed t = true ∧ released t = 1 ∧ close_connection t = true)
           (threads s') ∧
    semaphore s' = 2.
Proof.
  apply (all_requests_complete 2 3 [Enter 0; Enter 1]
           (State 0 [Thread Handling 0 false []; Thread Handling 0 false [];
                     Thread Accepted 0 false []])); [lia|reflexivity].
Defined.

(** ** The status document and the responses as a whole *)

Local Open Scope N_scope.

Lemma is_printable_app s1 s2 : is_printable s1 → is_printable s2 → is_printable (s1 ++ s2).
Proof. apply Forall_app_2. Qed.

Lemma is_printable_lit_check s :
  forallb (λ c, (32 <=? c) && (c <=? 126)) (lit s) = true → is_printable (lit s).
Proof.
  unfold is_printable. rewrite forallb_forall, Forall_forall.
  intros H c Hc. apply list_elem_of_In, H, andb_true_iff in Hc as [?%N.leb_le ?%N.leb_le].
  done.
Qed.

Lemma is_printable_ascii s : is_printable s → is_ascii s.
Proof. intros H. eapply Forall_impl; [exact H|]. intros c ?. simpl in *. lia. Qed.

Lemma hex_digit_printable n : 32 ≤ hex_digit (N.land n 0xF) ≤ 126.
Proof.
  change 0xF with (N.ones 4). rewrite N.land_ones.
  assert (n `mod` 2 ^ 4 < 16) as H by (apply N.mod_lt; done).
  revert H. generalize (n `mod` 2 ^ 4). intros d Hd.
  unfold hex_digit. destruct (d <? 10); lia.
Qed.

Lemma hex4_printable n : is_printable (hex4 n).
Proof. unfold hex4. repeat constructor; apply hex_digit_printable. Qed.

Lemma escape_char_printable c : is_printable (escape_char c).
Proof.
  unfold escape_char.
  repeat case_decide; try (by apply is_printable_lit_check).
  - apply is_printable_app; [by apply is_printable_lit_check|].
    repeat constructor; done.
  - destruct ((32 <=? c) && (c <=? 126)) eqn:E.
    + apply andb_true_iff in E as [?%N.leb_le ?%N.leb_le]. by repeat constructor.
    + case_match; repeat apply is_printable_app;
        (apply hex4_printable || by apply is_printable_lit_check).
Qed.

Lemma encode_basestring_ascii_printable s : is_printable (encode_basestring_ascii s).
Proof.
  unfold encode_basestring_ascii.
  apply is_printable_app; [by repeat constructor|].
  apply is_printable_app; [|by repeat constructor].
  induction s as [|c s IH]; [constructor|].
  apply is_printable_app; [apply escape_char_printable|apply IH].
Qed.

Lemma status_text_printable timestamp host :
  is_printable timestamp → is_printable host → is_printable (status_text timestamp host).
Proof.
  intros Ht Hh. unfold status_text.
  repeat first
    [ assumption
    | apply is_printable_app
    | by apply is_printable_lit_check
    | by repeat constructor ].
Qed.

(** X13: whatever the host name is, the status document consists of printable
    ASCII characters only: control characters, quotes, backslashes and
    everything outside ASCII in the host name are escaped, so the body is one
    line and its [Content-Length] counts its characters. *)
Theorem status_body_printable {F} (float_repr : F → str) (w : @world F) :
  (∀ f, is_printable (float_repr f)) →
  ∃ body,
    run (do_GET float_repr w (lit "/tcpstates")) =
      (Return (),
       [SendResponse 200;
        SendHeader (lit "Content-Type") (lit "application/json");
        SendHeader (lit "Content-Length") (str_of_int (len body));
        EndHeaders;
        Write body]) ∧
    is_printable body.
Proof.
  intros Hrepr.
  assert (is_printable (dumps float_repr (status_dict w))) as Hp.
  { rewrite dumps_status.
    apply status_text_printable; [apply Hrepr|apply encode_basestring_ascii_printable]. }
  exists (dumps float_repr (status_dict w)). split; [|done].
  unfold run, do_GET. rewrite decide_True by done.
  unfold try_except, handle_api, mbind, M_bind.
  by rewrite utf8_ascii by (by apply is_printable_ascii).
Qed.

Lemma status_body_printable_witness :
  ∃ body,
    run (do_GET example_repr
           (World example_root [] [10; 34; 0xE9; 0x1F600] () (lit "now"))
           (lit "/tcpstates")) =
      (Return (),
       [SendResponse 200;
        SendHeader (lit "Content-Type") (lit "application/json");
        SendHeader (lit "Content-Length") (str_of_int (len body));
        EndHeaders;
        Write body]) ∧
    is_printable body.
Proof.
  apply (status_body_printable example_repr).
  intros []. apply is_printable_lit_check. reflexivity.
Defined.

(** * The handler on an operating system *)

(** ** Computations on a system *)

Lemma quiet_ret {A} (a : A) : quiet (mret a).
Proof. intros s. by exists (Return a), (clock s); destruct s. Qed.

Lemma quiet_raise {A} e : is_Exception e = true → quiet (io_raise (A := A) e).
Proof. intros He s. by exists (Raise e), (clock s); destruct s. Qed.

Lemma quiet_bind {A B} (c : IO A) (f : A → IO B) :
  quiet c → (∀ a, quiet (f a)) → quiet (c ≫= f).
Proof.
  intros Hc Hf s. destruct (Hc s) as (r & t & Hr & He).
  unfold mbind, IO_bind. rewrite Hr. destruct r as [a|e].
  - destruct (Hf a (IOState (sent s) t)) as (r' & t' & Hr' & He').
    by exists r', t'.
  - by exists (Raise e), t.
Qed.

Lemma quiet_system_call {A} (answer : nat → A) : quiet (system_call answer).
Proof. intros s. by eexists (Return _), _. Qed.

Lemma quiet_for_each {A B} (f : A → IO B) (l : list A) :
  (∀ x, quiet (f x)) → quiet (io_for_each f l).
Proof.
  intros Hf. induction l as [|x l IH]; [apply quiet_ret|].
  cbn [io_for_each]. apply quiet_bind; [apply Hf|]. intros y.
  apply quiet_bind; [apply IH|]. intros ys. apply quiet_ret.
Qed.

Lemma quiet_path_stat sys p : quiet (path_stat sys p).
Proof.
  apply quiet_bind; [apply quiet_system_call|].
  intros [d sz|errno|]; [apply quiet_ret|by apply quiet_raise..].
Qed.

Lemma quiet_path_is_dir sys p : quiet (path_is_dir sys p).
Proof.
  apply quiet_bind; [apply quiet_system_call|].
  intros [d sz|errno|]; [apply quiet_ret| |apply quiet_ret].
  destruct (ignored_errno errno); [apply quiet_ret|by apply quiet_raise].
Qed.

Lemma quiet_path_exists sys p : quiet (path_exists sys p).
Proof.
  apply quiet_bind; [apply quiet_system_call|].
  intros [d sz|errno|]; [apply quiet_ret| |apply quiet_ret].
  destruct (ignored_errno errno); [apply quiet_ret|by apply quiet_raise].
Qed.

Lemma quiet_path_iterdir sys p : quiet (path_iterdir sys p).
Proof.
  apply quiet_bind; [apply quiet_system_call|].
  intros [names|errno|]; [apply quiet_ret|by apply quiet_raise..].
Qed.

Lemma quiet_child_item sys child : quiet (child_item_on sys child).
Proof.
  apply quiet_bind; [apply quiet_path_is_dir|].
  intros [|]; [apply quiet_ret|].
  apply quiet_bind; [apply quiet_path_stat|]. intros st.
  destruct (0 <? st.2); [|apply quiet_ret].
  apply quiet_bind; [apply quiet_path_stat|]. intros st'. apply quiet_ret.
Qed.

Lemma quiet_listing_html {F} sys (w : @world F) path : quiet (listing_html_on sys w path).
Proof.
  apply quiet_bind.
  { destruct (relative_to path (base_path w)); [apply quiet_ret|by apply quiet_raise]. }
  intros rel. apply quiet_bind; [|intros items; apply quiet_ret].
  apply quiet_bind; [apply quiet_path_iterdir|]. intros children.
  apply quiet_bind; [|intros entries; apply quiet_ret].
  apply quiet_for_each, quiet_child_item.
Qed.

(** ** C9 *)

Lemma do_GET_on_absent {F} (float_repr : F → str) sys (w : @world F) self_path :
  self_path ≠ lit "/tcpstates" →
  reported_absent (os_stat sys 0%nat (target_path w self_path)) →
  call_raises sys 1%nat (SendError 404 (Msg (lit "Not Found"))) = None →
  run_on (do_GET_on float_repr sys w self_path) =
    (Return (), [SendError 404 (Msg (lit "Not Found"))]).
Proof.
  intros Hne Habs Hcall. unfold run_on, do_GET_on. rewrite decide_False by done.
  unfold io_try, handle_file_or_dir_on, path_exists, mbind, IO_bind, system_call.
  simpl. destruct (os_stat sys 0%nat (target_path w self_path)) as [d sz|errno|];
    simpl in *; [done| |].
  - rewrite Habs. simpl. unfold library_call. simpl. by rewrite Hcall.
  - unfold library_call. simpl. by rewrite Hcall.
Qed.

Lemma do_GET_on_error {F} (float_repr : F → str) sys (w : @world F) self_path :
  self_path ≠ lit "/tcpstates" →
  reported_error (os_stat sys 0%nat (target_path w self_path)) →
  call_raises sys 1%nat (SendError 500 (MsgExc (lit "Server error: ") OSError)) = None →
  run_on (do_GET_on float_repr sys w self_path) =
    (Return (), [SendError 500 (MsgExc (lit "Server error: ") OSError)]).
Proof.
  intros Hne Herr Hcall. unfold run_on, do_GET_on. rewrite decide_False by done.
  unfold io_try, handle_file_or_dir_on, path_exists, mbind, IO_bind, system_call.
  simpl. destruct (os_stat sys 0%nat (target_path w self_path)) as [d sz|errno|];
    simpl in *; [done| |done].
  rewrite Herr. simpl. unfold library_call. simpl. by rewrite Hcall.
Qed.

(** C9, as amended: the path object of a request is the base path followed
    by the segments of the request path, which carry the characters of the
    request path (leading slashes apart) as they are, nothing decoded and
    nothing cut off; a request path that is one segment names the child of
    the base directory with exactly that name. The request is answered with
    404 when [stat] reports that nothing is at that path (and the client is
    still there to be answered); when [stat] fails with another error, as it
    does for a name that is too long, the answer is the error 500. *)
Theorem literal_join {F} (float_repr : F → str) (sys : system) (w : @world F)
    (self_path : str) :
  self_path ≠ lit "/tcpstates" →
  target_path w self_path = base_path w ++ parse_parts (lstrip 47 self_path) ∧
  join (lit "/") (split 47 (lstrip 47 self_path)) = lstrip 47 self_path ∧
  (name_ok (lstrip 47 self_path) →
   target_path w self_path = base_path w ++ [lstrip 47 self_path]) ∧
  (reported_absent (os_stat sys 0%nat (target_path w self_path)) →
   call_raises sys 1%nat (SendError 404 (Msg (lit "Not Found"))) = None →
   run_on (do_GET_on float_repr sys w self_path) =
     (Return (), [SendError 404 (Msg (lit "Not Found"))])) ∧
  (reported_error (os_stat sys 0%nat (target_path w self_path)) →
   call_raises sys 1%nat (SendError 500 (MsgExc (lit "Server error: ") OSError)) = None →
   run_on (do_GET_on float_repr sys w self_path) =
     (Return (), [SendError 500 (MsgExc (lit "Server error: ") OSError)])).
Proof.
  intros Hne. split; [apply target_path_eq|].
  split; [apply join_split|]. split; [|split].
  - intros Hname. by rewrite target_path_eq, parse_parts_segment.
  - by apply do_GET_on_absent.
  - by apply do_GET_on_error.
Qed.

Lemma literal_join_witness :
  lookup_entry (lit "a b") www = Some (File 3) ∧
  target_path example_world (lit "/a%20b") = [lit "srv"; lit "www"; lit "a%20b"] ∧
  run_on (do_GET_on example_repr (tree_system (Some NAME_MAX) example_root (lit "vm1"))
            example_world (lit "/a%20b")) =
    (Return (), [SendError 404 (Msg (lit "Not Found"))]).
Proof.
  split; [reflexivity|].
  destruct (literal_join example_repr (tree_system (Some NAME_MAX) example_root (lit "vm1"))
              example_world (lit "/a%20b"))
    as (_ & _ & Hseg & H404 & _).
  - vm_compute. discriminate.
  - split.
    + apply Hseg. apply (bool_decide_unpack _). vm_compute. reflexivity.
    + apply H404; vm_compute; reflexivity.
Defined.

(** C9 fails as stated: the directory holds a file whose name is 90 spaces;
    the request for the percent-encoded form of that name, [%20] 90 times, is
    joined as it is and names nothing in the directory, but its 270
    characters are more than a name may have: [stat] fails with
    [ENAMETOOLONG], [exists()] raises, and the answer is the error 500, not
    404. *)
Lemma percent_encoded_long_name :
  resolve (fs_root long_world) (base_path long_world ++ [long_name]) =
    Some ([lit "srv"; lit "www"; long_name], File 5) ∧
  long_request ≠ lit "/tcpstates" ∧
  target_path long_world long_request =
    base_path long_world ++ [mjoin (replicate 90 (lit "%20"))] ∧
  resolve (fs_root long_world) (target_path long_world long_request) = None ∧
  os_stat (tree_system (Some NAME_MAX) long_root (lit "vm1")) 0%nat
    (target_path long_world long_request) = StatOSError ENAMETOOLONG ∧
  run_on (do_GET_on example_repr (tree_system (Some NAME_MAX) long_root (lit "vm1"))
            long_world long_request) =
    (Return (), [SendError 500 (MsgExc (lit "Server error: ") OSError)]).
Proof.
  split; [by vm_compute|]. split; [by vm_compute|]. split; [by vm_compute|].
  split; [by vm_compute|]. split; by vm_compute.
Qed.

(** ** Whatever the system answers *)

Lemma library_call_connected sys ev s :
  connected sys →
  library_call sys ev s = (Return (), IOState (sent s ++ [ev]) (S (clock s))).
Proof. intros Hconn. unfold library_call. by rewrite Hconn. Qed.

Lemma send_directory_listing_on_connected {F} sys (w : @world F) path s :
  connected sys →
  ∃ ev evs t,
    send_directory_listing_on sys w path s = (Return (), IOState (sent s ++ ev :: evs) t) ∧
    (ev = SendResponse 200 ∨
     ∃ e, ev = SendError 500 (MsgExc (lit "Directory listing failed: ") e)).
Proof.
  intros Hconn. unfold send_directory_listing_on, io_try, mbind, IO_bind.
  destruct (quiet_listing_html sys w path s) as (r & t & -> & He).
  destruct r as [html|e].
  - rewrite !library_call_connected by done. simpl.
    destruct (utf8 html) as [data|]; simpl.
    + rewrite library_call_connected by done. simpl.
      rewrite <-!app_assoc. simpl. eexists _, _, _. split; [reflexivity|]. by left.
    + rewrite library_call_connected by done. simpl.
      rewrite <-!app_assoc. simpl. eexists _, _, _. split; [reflexivity|]. by left.
  - rewrite He. rewrite library_call_connected by done. simpl.
    eexists _, _, _. split; [reflexivity|]. right. by eexists.
Qed.

Lemma handle_api_on_connected {F} (float_repr : F → str) sys (w : @world F) :
  connected sys →
  ∃ r s', handle_api_on float_repr sys w (IOState [] 0) = (r, s') ∧
    match r with
    | Return _ => ∃ ev evs, sent s' = ev :: evs ∧ first_call ev
    | Raise e => is_Exception e = true ∧ sent s' = []
    end.
Proof.
  intros Hconn. unfold handle_api_on, mbind, IO_bind, system_call. simpl.
  destruct (socket_gethostname sys 0%nat) as [host|]; simpl; [|by eexists _, _].
  destruct (utf8 _) as [body|]; simpl; [|by eexists _, _].
  rewrite !library_call_connected by done. simpl.
  eexists _, _. split; [reflexivity|]. eexists _, _. split; [reflexivity|]. by left.
Qed.

Lemma handle_file_or_dir_on_connected {F} sys (w : @world F) self_path :
  connected sys →
  ∃ r s', handle_file_or_dir_on sys w self_path (IOState [] 0) = (r, s') ∧
    match r with
    | Return _ => ∃ ev evs, sent s' = ev :: evs ∧ first_call ev
    | Raise e => is_Exception e = true ∧ sent s' = []
    end.
Proof.
  intros Hconn.
  unfold handle_file_or_dir_on, path_exists, path_is_dir, mbind, IO_bind, system_call.
  simpl.
  assert (∀ t, ∃ r s', library_call sys (SendError 404 (Msg (lit "Not Found")))
                         (IOState [] t) = (r, s') ∧
            match r with
            | Return _ => ∃ ev evs, sent s' = ev :: evs ∧ first_call ev
            | Raise e => is_Exception e = true ∧ sent s' = []
            end) as Habsent.
  { intros t. rewrite library_call_connected by done.
    eexists _, _. split; [reflexivity|]. eexists _, _. split; [reflexivity|].
    right. by left. }
  assert (∀ t, ∃ r s', library_call sys SuperGET (IOState [] t) = (r, s') ∧
            match r with
            | Return _ => ∃ ev evs, sent s' = ev :: evs ∧ first_call ev
            | Raise e => is_Exception e = true ∧ sent s' = []
            end) as Hfile.
  { intros t. rewrite library_call_connected by done.
    eexists _, _. split; [reflexivity|]. eexists _, _. split; [reflexivity|].
    by repeat right. }
  destruct (os_stat sys 0%nat (target_path w self_path)) as [d sz|errno|]; simpl.
  - destruct (os_stat sys 1%nat (target_path w self_path)) as [d' sz'|errno'|]; simpl.
    + destruct d'; [|apply Hfile].
      destruct (send_directory_listing_on_connected sys w (target_path w self_path)
                  (IOState [] 2) Hconn) as (ev & evs & t & -> & Hev).
      eexists _, _. split; [reflexivity|]. eexists _, _. split; [reflexivity|].
      destruct Hev as [->|[e ->]]; [by left|]. right. right. right. left. by eexists.
    + destruct (ignored_errno errno'); simpl; [apply Hfile|by eexists _, _].
    + apply Hfile.
  - destruct (ignored_errno errno); simpl; [apply Habsent|by eexists _, _].
  - apply Habsent.
Qed.

(** X14: whatever the file system and the name service answer, a request
    whose calls into [http.server] all return is answered, and [do_GET]
    returns: the first call is the status 200, the error 404, the error 500
    with the message of [do_GET] or of the directory listing, or the
    hand-over to the file transfer of the base class. An exception can leave
    [do_GET] only through a call into [http.server] that raises. *)
Theorem do_GET_always_responds {F} (float_repr : F → str) (sys : system)
    (w : @world F) (self_path : str) :
  connected sys →
  ∃ ev evs,
    run_on (do_GET_on float_repr sys w self_path) = (Return (), ev :: evs) ∧
    first_call ev.
Proof.
  intros Hconn. unfold run_on, do_GET_on, io_try.
  assert (∃ r s',
            (if decide (self_path = lit "/tcpstates") then handle_api_on float_repr sys w
             else handle_file_or_dir_on sys w self_path) (IOState [] 0) = (r, s') ∧
            match r with
            | Return _ => ∃ ev evs, sent s' = ev :: evs ∧ first_call ev
            | Raise e => is_Exception e = true ∧ sent s' = []
            end) as (r & s' & -> & Hr).
  { case_decide; [by apply handle_api_on_connected|
                  by apply handle_file_or_dir_on_connected]. }
  destruct r as [[]|e].
  - destruct Hr as (ev & evs & -> & Hev). by exists ev, evs.
  - destruct Hr as [-> Hs']. rewrite library_call_connected by done. simpl.
    rewrite Hs'. eexists _, _. split; [reflexivity|].
    right. right. left. by eexists.
Qed.

Lemma do_GET_always_responds_witness :
  ∃ ev evs,
    run_on (do_GET_on example_repr (tree_system (Some NAME_MAX) long_root (lit "vm1"))
              long_world long_request) = (Return (), ev :: evs) ∧
    first_call ev.
Proof.
  apply (do_GET_always_responds example_repr). intros t ev. reflexivity.
Defined.

(** ** A system that answers as a directory tree does *)

Lemma simulates_ret {A} (a : A) : simulates (mret a) (mret a).
Proof. intros s. exists (clock s). by destruct s. Qed.

Lemma simulates_bind {A B} (c : IO A) (c' : M A) (f : A → IO B) (f' : A → M B) :
  simulates c c' →
  (∀ a, (∃ tr tr', c' tr = (Return a, tr')) → simulates (f a) (f' a)) →
  simulates (c ≫= f) (c' ≫= f').
Proof.
  intros Hc Hf s. destruct (Hc s) as [t Ht].
  unfold mbind, IO_bind, M_bind. rewrite Ht.
  destruct (c' (sent s)) as [[a|e] tr] eqn:Hc'; simpl.
  - destruct (Hf a (ex_intro _ _ (ex_intro _ _ Hc')) (IOState tr t)) as [t' Ht'].
    by exists t'.
  - by exists t.
Qed.

Lemma simulates_or_raise {A} e (o : option A) :
  simulates (io_or_raise e o) (or_raise e o).
Proof. intros s. exists (clock s). by destruct o, s. Qed.

Lemma simulates_try {A} (c : IO A) (c' : M A) (h : exn → IO A) (h' : exn → M A) :
  simulates c c' → (∀ e, simulates (h e) (h' e)) →
  simulates (io_try c h) (try_except c' h').
Proof.
  intros Hc Hh s. destruct (Hc s) as [t Ht].
  unfold io_try, try_except. rewrite Ht.
  destruct (c' (sent s)) as [[a|e] tr]; simpl; [by exists t|].
  destruct (is_Exception e); [|by exists t].
  destruct (Hh e (IOState tr t)) as [t' Ht']. by exists t'.
Qed.

Lemma simulates_call sys ev : connected sys → simulates (library_call sys ev) (emit ev).
Proof.
  intros Hconn s. rewrite library_call_connected by done. by eexists.
Qed.

Lemma simulates_for_each {A B} (f : A → IO B) (f' : A → M B) (l : list A) :
  Forall (λ x, simulates (f x) (f' x)) l →
  simulates (io_for_each f l) (for_each f' l).
Proof.
  induction 1 as [|x l Hx _ IH]; [apply simulates_ret|].
  cbn [io_for_each for_each]. apply simulates_bind; [done|]. intros y _.
  apply simulates_bind; [done|]. intros ys _. apply simulates_ret.
Qed.

Lemma simulates_run {A} (c : IO A) (c' : M A) : simulates c c' → run_on c = run c'.
Proof.
  intros Hc. unfold run_on, run. destruct (Hc (IOState [] 0)) as [t ->].
  simpl. by destruct (c' []).
Qed.

Section StaticTree.

Context {F : Type} (float_repr : F → str) (sys : system) (w : @world F).
Hypothesis Hstatic : static_tree sys w.

Lemma static_stat t p loc nd :
  resolve (fs_root w) p = Some (loc, nd) →
  os_stat sys t p =
    match nd with Dir sz _ => StatOk true sz | File sz => StatOk false sz end.
Proof.
  intros Hres. destruct Hstatic as (Hstat & _). specialize (Hstat t p).
  unfold stat_of_tree in Hstat. rewrite Hres in Hstat. by destruct nd.
Qed.

Lemma static_connected : connected sys.
Proof. by destruct Hstatic as (_ & _ & _ & ?). Qed.

Lemma simulates_child_item child :
  is_Some (resolve (fs_root w) child) →
  simulates (child_item_on sys child) (child_item w child).
Proof.
  intros [[loc nd] Hres] s.
  pose proof (λ t, static_stat t child loc nd Hres) as Hst.
  unfold child_item_on, child_item, path_is_dir, path_stat, is_dir, stat_size,
    mbind, IO_bind, M_bind, system_call, or_raise.
  rewrite Hres. simpl. rewrite !Hst. destruct nd as [sz|sz es]; simpl.
  - rewrite !Hst. simpl. destruct (0 <? sz); simpl; [|by eexists].
    rewrite !Hst. simpl. by eexists.
  - by eexists.
Qed.

Lemma simulates_listing_items path loc sz es :
  resolve (fs_root w) path = Some (loc, Dir sz es) →
  simulates (listing_items_on sys w path) (listing_items w path).
Proof.
  intros Hres. unfold listing_items_on, listing_items.
  assert (simulates (path_iterdir sys path)
            (or_raise OSError (iterdir (fs_root w) path))) as Hiter.
  { intros s. destruct Hstatic as (_ & Hlist & _). specialize (Hlist (clock s) path).
    unfold listdir_of_tree in Hlist. rewrite Hres in Hlist.
    unfold path_iterdir, iterdir, mbind, IO_bind, system_call. simpl.
    rewrite Hlist, Hres. simpl. rewrite <-list_fmap_compose. by eexists. }
  apply simulates_bind; [exact Hiter|]. intros children (tr & tr' & Hch).
  apply simulates_bind; [|intros entries _; apply simulates_ret].
  apply simulates_for_each, Forall_forall. intros child Hchild.
  apply simulates_child_item.
  unfold iterdir in Hch. rewrite Hres in Hch. injection Hch as <- _.
  unfold sorted in Hchild. rewrite merge_sort_Permutation in Hchild.
  apply list_elem_of_fmap in Hchild as (e & -> & He).
  by eapply resolve_child_is_Some.
Qed.

Lemma simulates_send_directory_listing path loc sz es :
  resolve (fs_root w) path = Some (loc, Dir sz es) →
  simulates (send_directory_listing_on sys w path) (send_directory_listing w path).
Proof.
  intros Hres. pose proof static_connected as Hconn.
  unfold send_directory_listing_on, send_directory_listing.
  apply simulates_try; [|intros e; by apply simulates_call].
  apply simulates_bind.
  { unfold listing_html_on, listing_html.
    apply simulates_bind; [apply simulates_or_raise|]. intros rel _.
    apply simulates_bind; [by eapply simulates_listing_items|].
    intros items _. apply simulates_ret. }
  intros html _.
  repeat (apply simulates_bind; [by apply simulates_call|]; intros [] _).
  apply simulates_bind; [apply simulates_or_raise|]. intros data _.
  by apply simulates_call.
Qed.

Lemma simulates_handle_file_or_dir self_path :
  simulates (handle_file_or_dir_on sys w self_path) (handle_file_or_dir w self_path).
Proof.
  pose proof static_connected as Hconn.
  destruct (resolve (fs_root w) (target_path w self_path)) as [[loc nd]|] eqn:Hres.
  - pose proof (λ t, static_stat t _ loc nd Hres) as Hst.
    destruct nd as [sz|sz es].
    + intros s.
      unfold handle_file_or_dir_on, handle_file_or_dir, path_exists, path_is_dir,
        exists_, is_dir, mbind, IO_bind, system_call.
      rewrite Hres, bool_decide_true by eauto. simpl. rewrite !Hst. simpl.
      rewrite !Hst. simpl. rewrite library_call_connected by done. by eexists.
    + intros s.
      destruct (simulates_send_directory_listing _ loc sz es Hres
                  (IOState (sent s) (S (S (clock s))))) as [t Ht].
      unfold handle_file_or_dir_on, handle_file_or_dir, path_exists, path_is_dir,
        exists_, is_dir, mbind, IO_bind, system_call.
      rewrite Hres, bool_decide_true by eauto. simpl. rewrite !Hst. simpl.
      rewrite !Hst. simpl. by exists t.
  - intros s. destruct Hstatic as (Hstat & _).
    specialize (Hstat (clock s) (target_path w self_path)).
    unfold stat_of_tree in Hstat. rewrite Hres in Hstat.
    unfold handle_file_or_dir_on, handle_file_or_dir, path_exists,
      exists_, mbind, IO_bind, system_call.
    rewrite Hres, bool_decide_false by (by intros [? [=]]). simpl.
    destruct (os_stat sys (clock s) (target_path w self_path)) as [d sz|errno|];
      simpl in *; [done| |].
    + rewrite Hstat. simpl. rewrite library_call_connected by done. by eexists.
    + rewrite library_call_connected by done. by eexists.
Qed.

Lemma simulates_handle_api :
  simulates (handle_api_on float_repr sys w) (handle_api float_repr w).
Proof.
  pose proof static_connected as Hconn. intros s.
  destruct Hstatic as (_ & _ & Hhost & _).
  unfold handle_api_on, handle_api, mbind, IO_bind, M_bind, system_call.
  cbv beta iota. rewrite Hhost. unfold io_or_raise at 1.
  unfold mret at 1, IO_ret at 1. cbv beta iota.
  change (status_dict_on w (gethostname w)) with (status_dict w).
  destruct (utf8 (dumps float_repr (status_dict w))) as [body|]; simpl;
    [|by eexists].
  rewrite !library_call_connected by done. simpl. by eexists.
Qed.

Lemma simulates_do_GET self_path :
  simulates (do_GET_on float_repr sys w self_path) (do_GET float_repr w self_path).
Proof.
  unfold do_GET_on, do_GET.
  apply simulates_try; [|intros e; apply simulates_call, static_connected].
  case_decide; [apply simulates_handle_api|apply simulates_handle_file_or_dir].
Qed.

End StaticTree.

Lemma stat_walk_walk up cur parts :
  match walk up cur parts with
  | Some (_, nd) => stat_walk None up cur parts = inr nd
  | None => ∃ errno, stat_walk None up cur parts = inl errno ∧ ignored_errno errno = true
  end.
Proof.
  revert up cur. induction parts as [|p ps IH]; intros up cur; [done|].
  cbn [walk stat_walk too_long]. destruct cur as [sz|sz es]; [by exists ENOTDIR|].
  repeat case_decide.
  - apply IH.
  - destruct up as [|[? parent] up']; apply IH.
  - destruct (lookup_entry p es) as [nd|]; [apply IH|by exists ENOENT].
Qed.

Lemma tree_system_static {F} (w : @world F) :
  static_tree (tree_system None (fs_root w) (gethostname w)) w.
Proof.
  split; [|split; [|done]].
  - intros t p. unfold stat_of_tree, resolve. simpl. unfold tree_stat.
    pose proof (stat_walk_walk [] (fs_root w) p) as H.
    destruct (walk [] (fs_root w) p) as [[up nd]|]; simpl.
    + rewrite H. by destruct nd.
    + by destruct H as (errno & -> & ?).
  - intros t p. unfold listdir_of_tree, resolve. simpl. unfold tree_listdir.
    pose proof (stat_walk_walk [] (fs_root w) p) as H.
    destruct (walk [] (fs_root w) p) as [[up nd]|]; simpl.
    + rewrite H. by destruct nd.
    + by destruct H as (errno & -> & ?).
Qed.



(** ** The listing document *)

Lemma child_item_on_returns sys child s :
  (∀ t, ∃ d sz, os_stat sys t child = StatOk d sz) →
  ∃ it t, child_item_on sys child s = (Return it, IOState (sent s) t).
Proof.
  intros Hst.
  unfold child_item_on, path_is_dir, path_stat, mbind, IO_bind, system_call. simpl.
  destruct (Hst (clock s)) as (d & sz & ->). simpl.
  destruct d; [by eexists _, _|]. simpl.
  destruct (Hst (S (clock s))) as (d1 & sz1 & ->). simpl.
  destruct (0 <? sz1); [|by eexists _, _]. simpl.
  destruct (Hst (S (S (clock s)))) as (d2 & sz2 & ->). simpl. by eexists _, _.
Qed.

Lemma io_for_each_returns {A B} (f : A → IO B) (l : list A) s :
  (∀ x s, x ∈ l → ∃ y t, f x s = (Return y, IOState (sent s) t)) →
  ∃ ys t, io_for_each f l s = (Return ys, IOState (sent s) t) ∧ length ys = length l.
Proof.
  revert s. induction l as [|x l IH]; intros s Hf.
  - exists [], (clock s). by destruct s.
  - destruct (Hf x s) as (y & t & Hy); [apply list_elem_of_here|].
    destruct (IH (IOState (sent s) t)) as (ys & t' & Hys & Hlen).
    { intros x' s' Hx'. apply Hf. by apply list_elem_of_further. }
    exists (y :: ys), t'. cbn [io_for_each]. unfold mbind, IO_bind.
    rewrite Hy, Hys. simpl. by rewrite Hlen.
Qed.


